(** * Bulk YouTube downloader: the pure helpers and the queue worker of main.py

    The development embeds [build_format], [human_bytes], the progress hook
    and [DLWorker] (its [stop] method and its [run] loop) of [src/main.py]
    and proves the properties the specification states about them.

    Modelling conventions.
    - A Python [int] is a [Z]; a Python [float] is the rational number it
      denotes, a [Q].  Dividing a float by 1024 is exact in binary floating
      point, so [human_bytes] is modelled without rounding; the quotient
      [got*100/total] of the hook is the binary64 number nearest to the
      exact quotient, ties to even, as the division of two Python ints
      gives it, with its [OverflowError] when that is out of range.
      Infinities and NaN are outside the model.
    - [x or y] and [if x] test Python truthiness: [None], [0] and the empty
      string are false.
    - The extraction library is a black box: what its session does for the
      i-th item (the metadata probe, the dictionaries it feeds the progress
      hook, how the download ends) is a parameter of the worker.  Exceptions
      are the subclasses of [Exception], split as the handlers of [run]
      split them. *)

From Stdlib Require Import ZArith QArith Qround Qabs Qpower String Ascii List
  Lia Lqa
  Bool Arith DecimalString DecimalZ DecimalPos Sorted.
Import ListNotations.

Close Scope Q_scope.
Open Scope string_scope.

(** ** Strings *)

(** [str(n)] for an integer: decimal digits, with a minus sign when negative. *)
Definition decimal (z : Z) : string := NilZero.string_of_int (Z.to_int z).

(** [needle in hay]: [needle] occurs in [hay] as a contiguous substring. *)
Fixpoint contains (needle hay : string) {struct hay} : bool :=
  match hay with
  | EmptyString => prefix needle EmptyString
  | String _ rest => prefix needle hay || contains needle rest
  end.

(** ** build_format *)

(** [if max_res]: an absent cap and a cap of zero are both false. *)
Definition cap_truthy (max_res : option Z) : bool :=
  match max_res with
  | Some r => negb (r =? 0)%Z
  | None => false
  end.

(** [str(max_res)] inside the f-string; only reached when the cap is set. *)
Definition cap_text (max_res : option Z) : string :=
  match max_res with
  | Some r => decimal r
  | None => "None"
  end.

Definition build_format (max_res : option Z) : string :=
  if cap_truthy max_res
  then "bv*[height<=" ++ cap_text max_res ++ "]+ba/b[height<="
         ++ cap_text max_res ++ "]"
  else "bv*+ba/b".

(** ** human_bytes *)

Definition units : list string := ["B"; "KB"; "MB"; "GB"; "TB"].

(** The loop [while n >= 1024 and i < len(units)-1: n/=1024; i+=1].  The
    counter [i] only grows and the guard bounds it, so the loop body runs at
    most [len(units)-1-i] times; [fuel] is that bound. *)
Fixpoint scale (fuel : nat) (n : Q) (i : nat) : Q * nat :=
  match fuel with
  | O => (n, i)
  | S fuel' =>
      if Qle_bool 1024 n && (i <? length units - 1)%nat
      then scale fuel' (n / 1024)%Q (S i)
      else (n, i)
  end.

(** Rounding to the nearest integer, ties to even: the rounding a float
    conversion with a fixed number of decimals applies to the exact value. *)
Definition round_half_even (x : Q) : Z :=
  let f := Qfloor x in
  match ((x - inject_Z f) ?= (1 # 2))%Q with
  | Lt => f
  | Gt => (f + 1)%Z
  | Eq => if Z.even f then f else (f + 1)%Z
  end.

(** [f"{x:.1f}"]: sign, integer part, a point and exactly one decimal. *)
Definition format_1f (x : Q) : string :=
  let t := round_half_even (Qabs x * 10)%Q in
  (if Qle_bool 0 x then "" else "-")
    ++ decimal (t / 10)%Z ++ "." ++ decimal (t mod 10)%Z.

Definition human_bytes (n : option Q) : string :=
  match n with
  | None => "0 B"
  | Some q =>
      if Qeq_bool q 0 || Qle_bool q 0 then "0 B"
      else
        let '(v, i) := scale (length units - 1) q 0 in
        format_1f v ++ " " ++ nth i units ""
  end.

(** [n] divided by 1024 [k] times over. *)
Definition divided (k : nat) (n : Q) : Q :=
  Nat.iter k (fun x => (x / 1024)%Q) n.

(** ** Floating point *)

Definition pow2 (k : Z) : Q := (2 ^ k)%Q.

(** For a positive [x], the exponent [e] with [2^e <= x < 2^(e+1)]. *)
Definition binade (x : Q) : Z :=
  let e0 := (Z.log2 (Qnum x) - Z.log2 (Z.pos (Qden x)))%Z in
  if Qle_bool (pow2 e0) x then e0 else (e0 - 1)%Z.

(** The spacing of the binary64 numbers around [x] is [2^u] for this [u]:
    52 binary places below the leading bit of [x], and never below the
    spacing [2^-1074] of the subnormal numbers. *)
Definition ulp_exponent (x : Q) : Z := Z.max (binade (Qabs x) - 52) (-1074).

(** Rounding to the nearest multiple of [2^u], ties to the even one. *)
Definition on_grid (u : Z) (x : Q) : Q :=
  (inject_Z (round_half_even (x * pow2 (- u))) * pow2 u)%Q.

(** The binary64 number nearest to [x], ties to even, range apart. *)
Definition nearest_double (x : Q) : Q := on_grid (ulp_exponent x) x.

(** [a / b] on two ints, [b] not zero: the exact quotient rounded to the
    nearest binary64 number; [None] is the [OverflowError] raised when that
    is beyond the largest one. *)
Definition true_divide (a b : Z) : option Q :=
  let v := nearest_double (inject_Z a / inject_Z b) in
  if Qle_bool (pow2 1024) (Qabs v) then None else Some v.

(** [int(v)] on a float: the fraction is dropped, toward zero. *)
Definition py_int (v : Q) : Z := Z.quot (Qnum v) (Z.pos (Qden v)).

Open Scope list_scope.

(** ** Signals *)

(** The dictionary [sig_update] carries.  The worker only ever writes these
    five keys; an absent key is [None]. *)
Record payload := Payload {
  status : option string;
  progress : option Z;
  speed : option string;
  error : option string;
  title : option string
}.

(** What the worker emits: [sig_update.emit(i, payload)] or
    [sig_done.emit()]. *)
Inductive signal :=
| sig_update (i : nat) (p : payload)
| sig_done.

Definition starting : payload :=
  Payload (Some "Starting") (Some 0%Z) None None None.
Definition downloading (pct : Z) (spd : string) : payload :=
  Payload (Some "Downloading") (Some pct) (Some spd) None None.
Definition merging : payload :=
  Payload (Some "Merging") (Some 100%Z) None None None.
Definition done : payload :=
  Payload (Some "Done") (Some 100%Z) None None None.
Definition failed (msg : string) : payload :=
  Payload (Some "Error") None None (Some msg) None.
Definition titled (t : string) : payload :=
  Payload None None None None (Some t).

Definition has_status (name : string) (p : payload) : bool :=
  match status p with
  | Some st => (st =? name)%string
  | None => false
  end.

(** A terminal payload closes an item: Done or Error. *)
Definition is_terminal (p : payload) : bool :=
  has_status "Done" p || has_status "Error" p.

Definition has_title (p : payload) : bool :=
  match title p with Some _ => true | None => false end.

(** ** The progress hook *)

(** The dictionary the extraction library passes to a progress hook, with
    the keys the hook reads. *)
Record progress_dict := ProgressDict {
  d_status : option string;
  total_bytes : option Z;
  total_bytes_estimate : option Z;
  downloaded_bytes : option Z;
  d_speed : option Q
}.

Definition truthy (x : option Z) : bool :=
  match x with
  | Some n => negb (n =? 0)%Z
  | None => false
  end.

(** [x or y] on optional integers. *)
Definition py_or (x y : option Z) : option Z := if truthy x then x else y.

(** [x or 0]. *)
Definition or_zero (x : option Z) : Z :=
  match x with
  | Some n => n
  | None => 0%Z
  end.

(** [d.get("total_bytes") or d.get("total_bytes_estimate") or 0] *)
Definition hook_total (d : progress_dict) : Z :=
  or_zero (py_or (total_bytes d) (total_bytes_estimate d)).

(** [d.get("downloaded_bytes") or 0] *)
Definition hook_got (d : progress_dict) : Z := or_zero (downloaded_bytes d).

(** [int(got*100/total) if total else 0]: a float division, then [int].
    [None] is the [OverflowError] of the division. *)
Definition hook_pct (d : progress_dict) : option Z :=
  if (hook_total d =? 0)%Z then Some 0%Z
  else option_map py_int (true_divide (hook_got d * 100) (hook_total d)).

(** [f"{human_bytes(d.get('speed'))}/s" if d.get("speed") else ""] *)
Definition hook_speed (d : progress_dict) : string :=
  match d_speed d with
  | Some q => if Qeq_bool q 0 then "" else (human_bytes (Some q) ++ "/s")%string
  | None => ""
  end.

(** The signals one call of the hook emits.  The percent is computed
    before anything is emitted, so a call that raises there has emitted
    nothing; where the exception goes is the library's affair and shows in
    how its [download] ends. *)
Definition hook (i : nat) (d : progress_dict) : list signal :=
  match d_status d with
  | Some st =>
      if (st =? "downloading")%string
      then match hook_pct d with
           | Some pct => [sig_update i (downloading pct (hook_speed d))]
           | None => []
           end
      else if (st =? "finished")%string
      then [sig_update i merging]
      else []
  | None => []
  end.

(** ** The extraction library, as the worker sees it *)

(** The exceptions the handlers of [run] tell apart:
    [yt_dlp.utils.DownloadError] and every other [Exception].  The string
    is [str(e)]. *)
Inductive exn :=
| DownloadError (msg : string)
| OtherException (msg : string).

(** The result of [extract_info]: [None] or a dictionary, of which the
    worker reads the key ["title"]. *)
Record info_dict := InfoDict { info_title : option string }.

Inductive probe_result :=
| Probe_raises (e : exn)
| Probe_returns (info : option info_dict).

(** One session [with yt_dlp.YoutubeDL(opts) as ydl]: what
    [ydl.extract_info(url, download=False, process=False)] does, the
    dictionaries [ydl.download([url])] passes to the progress hook, in
    order, and the exception that call ends with, if any.  Opening and
    closing the session are taken not to raise. *)
Record session := Session {
  extract_info : probe_result;
  callbacks : list progress_dict;
  download : option exn
}.

(** A queued row, [{"url": ...}]. *)
Record row := Row { url : string }.

(** The option bundle handed to the library, as rendered key/value pairs. *)
Definition ydl_opts := list (string * string).

(** ** DLWorker *)

Record DLWorker := Worker {
  rows : list row;
  opts : ydl_opts;
  _stop : bool
}.

(** [DLWorker.__init__] *)
Definition init (rs : list row) (o : ydl_opts) : DLWorker := Worker rs o false.

(** [DLWorker.stop] *)
Definition stop (w : DLWorker) : DLWorker := Worker (rows w) (opts w) true.

(** The inner [try ... except Exception: pass] around the metadata probe:
    a title is emitted when the probe returns a dictionary with a non-empty
    title, and nothing otherwise. *)
Definition probe_events (i : nat) (r : probe_result) : list signal :=
  match r with
  | Probe_raises _ => []
  | Probe_returns None => []
  | Probe_returns (Some info) =>
      match info_title info with
      | Some t => if (t =? "")%string then [] else [sig_update i (titled t)]
      | None => []
      end
  end.

(** The signals [ydl.download([url])] causes through the hook. *)
Definition download_events (i : nat) (s : session) : list signal :=
  flat_map (hook i) (callbacks s).

(** The body of the outer [try]: the signals it emits and the exception
    that leaves it, if any.  [Done] is emitted only when [download]
    returns. *)
Definition attempt (i : nat) (s : session) : list signal * option exn :=
  let before := probe_events i (extract_info s) ++ download_events i s in
  match download s with
  | None => (before ++ [sig_update i done], None)
  | Some e => (before, Some e)
  end.

(** The two [except] clauses. *)
Definition handler (i : nat) (e : exn) : signal :=
  match e with
  | DownloadError msg =>
      sig_update i (failed ("Download failed: " ++ msg)%string)
  | OtherException msg =>
      sig_update i (failed ("An unexpected error occurred: " ++ msg)%string)
  end.

(** One iteration of the loop of [run], after the stop test. *)
Definition run_item (i : nat) (s : session) : list signal :=
  sig_update i starting ::
  (let '(emitted, raised) := attempt i s in
   emitted ++ match raised with
              | Some e => [handler i e]
              | None => []
              end).

(** The signal that closes an item. *)
Definition closing (i : nat) (s : session) : signal :=
  match download s with
  | None => sig_update i done
  | Some e => handler i e
  end.

(** Where the worker thread is: about to test the stop flag for item [i],
    inside the iteration for item [i] with some signals still to emit, past
    the loop and about to emit [sig_done], or returned. *)
Inductive pcounter :=
| Check (i : nat)
| InItem (i : nat) (pending : list signal)
| AfterLoop
| Halted.

Record config := Config {
  self : DLWorker;
  pc : pcounter;
  emitted : list signal
}.

(** [stop()] called from the interface thread while the worker runs. *)
Definition request_stop (c : config) : config :=
  Config (stop (self c)) (pc c) (emitted c).

(** What may happen next: the worker thread takes a step, or some other
    thread calls [stop()]. *)
Inductive action := Work | StopReq.

(** [k] items were begun when the loop was left: all of them unless a
    stop was requested. *)
Definition settled (w : DLWorker) (k : nat) : Prop :=
  k <= length (rows w) /\ (_stop w = false -> k = length (rows w)).

Section Run.

(** The library: the session it gives for the options, the position in
    the queue and the URL. *)
Variable ydl : ydl_opts -> nat -> string -> session.

Definition session_of (w : DLWorker) (i : nat) (r : row) : session :=
  ydl (opts w) i (url r).

(** One step of the worker thread inside [run]. *)
Definition step (c : config) : config :=
  let w := self c in
  match pc c with
  | Check i =>
      match nth_error (rows w) i with
      | None => Config w AfterLoop (emitted c)
      | Some r =>
          if _stop w then Config w AfterLoop (emitted c)
          else Config w (InItem i (run_item i (session_of w i r))) (emitted c)
      end
  | InItem i [] => Config w (Check (S i)) (emitted c)
  | InItem i (sg :: pending) =>
      Config w (InItem i pending) (emitted c ++ [sg])
  | AfterLoop => Config w Halted (emitted c ++ [sig_done])
  | Halted => c
  end.

Definition perform (c : config) (a : action) : config :=
  match a with
  | Work => step c
  | StopReq => request_stop c
  end.

Definition exec (sched : list action) (c : config) : config :=
  fold_left perform sched c.

(** [run] is entered with the loop at its first item and nothing
    emitted. *)
Definition start (w : DLWorker) : config := Config w (Check 0) [].

(** The signals of the items of [rs], queued from position [i] on, when
    each is run in turn. *)
Fixpoint items_from (w : DLWorker) (i : nat) (rs : list row) : list signal :=
  match rs with
  | [] => []
  | r :: rs' => run_item i (session_of w i r) ++ items_from w (S i) rs'
  end.

(** The signals of the first [k] items. *)
Definition upto (w : DLWorker) (k : nat) : list signal :=
  items_from w 0 (firstn k (rows w)).

(** Worker steps a run of the items of [rs] takes: per item the stop
    test, one step per signal and the return to the loop head. *)
Fixpoint cost_from (w : DLWorker) (i : nat) (rs : list row) : nat :=
  match rs with
  | [] => 0
  | r :: rs' =>
      length (run_item i (session_of w i r)) + 2 + cost_from w (S i) rs'
  end.

(** Worker steps left until [run] returns, if the flag stays as it is. *)
Definition todo (c : config) : nat :=
  let w := self c in
  let rest i := if _stop w then 0 else cost_from w i (skipn i (rows w)) in
  match pc c with
  | Check i => rest i + 2
  | InItem i pending => length pending + 1 + rest (S i) + 2
  | AfterLoop => 1
  | Halted => 0
  end.

(** The signals a run will have emitted when it returns, if the flag
    stays as it is. *)
Definition final (c : config) : list signal :=
  let w := self c in
  let rest i := if _stop w then [] else items_from w i (skipn i (rows w)) in
  match pc c with
  | Check i => emitted c ++ rest i ++ [sig_done]
  | InItem i pending => emitted c ++ pending ++ rest (S i) ++ [sig_done]
  | AfterLoop => emitted c ++ [sig_done]
  | Halted => emitted c
  end.

(** Items that have passed the stop test, read off a configuration that
    no stop request has touched yet: past the loop, that is all of them. *)
Definition begun (c : config) : nat :=
  match pc c with
  | Check i => i
  | InItem i _ => S i
  | AfterLoop | Halted => length (rows (self c))
  end.

(** What holds of every configuration a run passes through: the signals
    emitted so far, with those still pending, are exactly the signals of
    the items begun. *)
Definition consistent (c : config) : Prop :=
  let w := self c in
  match pc c with
  | Check i => i <= length (rows w) /\ emitted c = upto w i
  | InItem i pending =>
      i < length (rows w) /\ emitted c ++ pending = upto w (S i)
  | AfterLoop => exists k, settled w k /\ emitted c = upto w k
  | Halted => exists k, settled w k /\ emitted c = upto w k ++ [sig_done]
  end.

End Run.

(** ** Reading a trace *)

Definition count {A} (f : A -> bool) (l : list A) : nat := length (filter f l).

Definition about (i : nat) (sg : signal) : bool :=
  match sg with
  | sig_update j _ => (j =? i)%nat
  | sig_done => false
  end.

Definition terminal_of (i : nat) (sg : signal) : bool :=
  match sg with
  | sig_update j p => (j =? i)%nat && is_terminal p
  | sig_done => false
  end.

Definition is_terminal_signal (sg : signal) : bool :=
  match sg with
  | sig_update _ p => is_terminal p
  | sig_done => false
  end.

Definition is_done (sg : signal) : bool :=
  match sg with
  | sig_done => true
  | sig_update _ _ => false
  end.

Definition is_title (sg : signal) : bool :=
  match sg with
  | sig_update _ p => has_title p
  | sig_done => false
  end.

Definition is_error (sg : signal) : bool :=
  match sg with
  | sig_update _ p => has_status "Error" p
  | sig_done => false
  end.

(** The percents of the Downloading signals of a trace, in order. *)
Definition downloading_percents (l : list signal) : list Z :=
  flat_map (fun sg =>
              match sg with
              | sig_update _ p =>
                  if has_status "Downloading" p
                  then match progress p with Some z => [z] | None => [] end
                  else []
              | sig_done => []
              end) l.

(** [earlier] comes no later than [later] in queue order. *)
Definition in_order (earlier later : signal) : Prop :=
  match earlier, later with
  | sig_update i _, sig_update j _ => i <= j
  | sig_done, sig_update _ _ => False
  | _, sig_done => True
  end.

(** [sg] belongs to an item at position [j] or later. *)
Definition not_before (j : nat) (sg : signal) : Prop :=
  match sg with
  | sig_update i _ => j <= i
  | sig_done => False
  end.

Definition is_work (a : action) : bool :=
  match a with
  | Work => true
  | StopReq => false
  end.

(** Every signal of an item is a plain [sig_update] for that item that
    satisfies [P]; a helper to read off facts about the four kinds of
    payload. *)
Definition each_payload (i : nat) (P : payload -> Prop) (l : list signal) : Prop :=
  Forall (fun sg => exists p, sg = sig_update i p /\ P p) l.

(** ** Reading progress dictionaries *)

Definition is_downloading (d : progress_dict) : bool :=
  match d_status d with
  | Some st => (st =? "downloading")%string
  | None => false
  end.






(** The downloaded count is within the total the hook uses, when there is
    one. *)
Definition in_range (d : progress_dict) : Prop :=
  hook_total d = 0%Z \/ (0 <= hook_got d <= hook_total d)%Z.

(** From one callback to the next the downloaded count does not shrink
    and the total, once known, stays known and does not grow. *)
Definition steady (d1 d2 : progress_dict) : Prop :=
  hook_total d1 = 0%Z
  \/ ((hook_got d1 <= hook_got d2)%Z
      /\ (0 < hook_total d2 <= hook_total d1)%Z).

(** The percent a downloading callback puts on its signal, if it gets
    that far. *)
Definition percent_shown (d : progress_dict) : list Z :=
  match hook_pct d with
  | Some pct => [pct]
  | None => []
  end.

Definition pct_or_zero (d : progress_dict) : Z :=
  match hook_pct d with
  | Some pct => pct
  | None => 0%Z
  end.


(** ** Sample runs *)



Definition progress_report (total estimate got : option Z) : progress_dict :=
  ProgressDict (Some "downloading") total estimate got (Some 1536%Q).

(** The estimate doubles between two callbacks. *)
Definition estimate_grows : session :=
  Session (Probe_returns None)
    [progress_report None (Some 100%Z) (Some 50%Z);
     progress_report None (Some 200%Z) (Some 60%Z)]
    None.

(** More bytes arrive than the reported total. *)
Definition overshoots : session :=
  Session (Probe_returns None)
    [progress_report (Some 100%Z) None (Some 200%Z)]
    None.

(** A download that behaves: a title, three progress reports against a
    fixed total, the merge, success. *)
Definition well_behaved : session :=
  Session (Probe_returns (Some (InfoDict (Some "Clip"))))
    [progress_report (Some 300%Z) None (Some 100%Z);
     progress_report (Some 300%Z) None (Some 200%Z);
     progress_report (Some 300%Z) None (Some 300%Z);
     ProgressDict (Some "finished") None None None None]
    None.

(** A library that serves the first item well, fails the probe and the
    download of the second, and breaks unexpectedly on every other. *)
Definition sample_ydl (o : ydl_opts) (i : nat) (u : string) : session :=
  match i with
  | 0 => well_behaved
  | 1 => Session (Probe_raises (OtherException "timed out")) []
           (Some (DownloadError "geo-blocked"))
  | _ => Session (Probe_returns None) [] (Some (OtherException "boom"))
  end.

Definition sample_rows : list row := [Row "a"; Row "b"; Row "c"].

(** ** Reading an integer *)

(** [int(text)] on a text of decimal digits with an optional minus sign;
    [None] is [ValueError].  Python reads a few more texts (blanks around
    the digits, a plus sign, underscores); the window never passes one. *)
Definition int_of_text (text : string) : option Z :=
  option_map Z.of_int (NilZero.int_of_string text).

(** The cap as the selector sees it: a cap of zero counts as none. *)
Definition effective_cap (max_res : option Z) : option Z :=
  if cap_truthy max_res then max_res else None.

(** A callback the hook answers with a signal. *)
Definition is_reported (d : progress_dict) : bool :=
  match d_status d with
  | Some st => (st =? "downloading")%string || (st =? "finished")%string
  | None => false
  end.

(** The index a signal carries. *)
Definition in_queue (n : nat) (sg : signal) : Prop :=
  match sg with
  | sig_update i _ => i < n
  | sig_done => True
  end.

(** ** The window: Main *)

Module Main.

(** The entries of the two option boxes, as [_build_ui] fills them. *)
Definition resolution_items : list string :=
  ["No cap"; "2160"; "1440"; "1080"; "720"].
Definition format_items : list string := ["MKV (safe)"; "MP4"].

(** [QComboBox.currentText()]: the entry at the current index, the empty
    text when there is no current entry (index -1). *)
Definition currentText (items : list string) (index : Z) : string :=
  if (index <? 0)%Z then "" else nth (Z.to_nat index) items "".

(** [None if max_res_text=="No cap" else int(max_res_text)]; the outer
    [None] is the [ValueError] of [int]. *)
Definition max_res_val (max_res_text : string) : option (option Z) :=
  if (max_res_text =? "No cap")%string then Some None
  else option_map Some (int_of_text max_res_text).

(** ["mkv" if self.format_combo.currentIndex()==0 else "mp4"] *)
Definition merge_fmt (index : Z) : string :=
  if (index =? 0)%Z then "mkv" else "mp4".

(** The dictionary [ydl_opts] of [_start], one pair per leaf: a nested key
    is written with dots, a value as Python prints it.  [template] is the
    output path pattern, [str(outdir/"%(title)s [%(id)s].%(ext)s")]. *)
Definition start_opts (template : string) (cap : option Z) (index : Z)
  : ydl_opts :=
  [("format", build_format cap);
   ("merge_output_format", merge_fmt index);
   ("outtmpl.default", template);
   ("quiet", "True");
   ("geo_bypass", "True");
   ("extractor_args.youtube.player_client", "['android']");
   ("http_headers.User-Agent",
    "Mozilla/5.0 (Windows NT 10.0; Win64; x64) AppleWebKit/537.36 (KHTML, like Gecko) Chrome/124.0 Safari/537.36");
   ("http_chunk_size", decimal (10 * 1024 * 1024));
   ("retries", decimal 10);
   ("fragment_retries", decimal 10);
   ("continuedl", "True");
   ("ignoreerrors", "only_download")].

(** The window, as far as [_add_url], [_start], [_stop] and [_on_done]
    read or write it: the texts of column 0 of the table from top to
    bottom, the URL field, the output folder field, the current index of
    the two option boxes, the worker with the state of its thread, and
    whether the two buttons are enabled.  The other columns of the table
    are written by [_add_url] and [_on_update] and read by none of the
    four methods; they are left out. *)
Record window := Window {
  table : list string;
  url_input : string;
  out_dir : string;
  max_res : Z;
  format_combo : Z;
  worker : option config;
  btn_start : bool;
  btn_stop : bool
}.

(** [self.worker and self.worker.isRunning()]: there is a worker and its
    [run] has not returned. *)
Definition isRunning (w : option config) : bool :=
  match w with
  | Some c => match pc c with Halted => false | _ => true end
  | None => false
  end.

(** [_add_url]: an empty URL is dropped; any other is put in a new last
    row, and the URL field is cleared. *)
Definition _add_url (url : string) (m : window) : window :=
  if (url =? "")%string then m
  else Window (table m ++ [url]) "" (out_dir m) (max_res m) (format_combo m)
         (worker m) (btn_start m) (btn_stop m).

(** [_stop]: the request reaches the worker only while it runs. *)
Definition _stop (m : window) : window :=
  match worker m with
  | Some c =>
      if isRunning (worker m)
      then Window (table m) (url_input m) (out_dir m) (max_res m)
             (format_combo m) (Some (request_stop c)) (btn_start m) (btn_stop m)
      else m
  | None => m
  end.

(** [_on_done] *)
Definition _on_done (m : window) : window :=
  Window (table m) (url_input m) (out_dir m) (max_res m) (format_combo m)
    (worker m) true false.

(** What a user or the worker thread does next. *)
Inductive event :=
| AddUrl (url : string)
| Choose (resolution format : Z) (folder : string)
| ClickStart (mkdir_ok : bool)
| ClickStop
| DoneDelivered
| WorkerStep.

(** The worker steps and stop clicks among some events, in order. *)
Definition schedule_of (events : list event) : list action :=
  flat_map (fun e => match e with
                     | WorkerStep => [Work]
                     | ClickStop => [StopReq]
                     | _ => []
                     end) events.

Section Controller.

(** The library, and the output path pattern for a folder text (the path
    arithmetic of [pathlib] is not modelled). *)
Variable ydl : ydl_opts -> nat -> string -> session.
Variable outtmpl : string -> string.

(** [_start].  [mkdir_ok] tells whether creating the output folder
    succeeds.  [None]: an exception leaves the method, from [mkdir] or
    from [int]; nothing of the window has been assigned by then.  The
    warning about a missing ffmpeg changes nothing. *)
Definition _start (mkdir_ok : bool) (m : window) : option window :=
  if (length (table m) =? 0)%nat then Some m
  else if isRunning (worker m) then Some m
  else if negb mkdir_ok then None
  else
    match max_res_val (currentText resolution_items (max_res m)) with
    | None => None
    | Some max_res_val =>
        let ydl_opts :=
          start_opts (outtmpl (out_dir m)) max_res_val (format_combo m) in
        let rows := map Row (table m) in
        Some (Window (table m) (url_input m) (out_dir m) (max_res m)
                (format_combo m) (Some (start (init rows ydl_opts)))
                false true)
    end.

(** One event on the window. *)
Definition react (m : window) (e : event) : window :=
  match e with
  | AddUrl url => _add_url url m
  | Choose resolution format folder =>
      Window (table m) (url_input m) folder resolution format (worker m)
        (btn_start m) (btn_stop m)
  | ClickStart mkdir_ok =>
      match _start mkdir_ok m with
      | Some m' => m'
      | None => m
      end
  | ClickStop => _stop m
  | DoneDelivered => _on_done m
  | WorkerStep =>
      match worker m with
      | Some c =>
          Window (table m) (url_input m) (out_dir m) (max_res m)
            (format_combo m) (Some (step ydl c)) (btn_start m) (btn_stop m)
      | None => m
      end
  end.

Definition play (events : list event) (m : window) : window :=
  fold_left react events m.

(** The worker, if any, is in a state a run passes through, and its queue
    is no longer than the table. *)
Definition sound (m : window) : Prop :=
  match worker m with
  | Some c => consistent ydl c /\ length (rows (self c)) <= length (table m)
  | None => True
  end.

End Controller.

End Main.

(** [1024^k], the size from which the [k]-th unit is used. *)
Definition threshold (k : nat) : Q := inject_Z (1024 ^ Z.of_nat k).

(** A window with three URLs queued, 1080 and MKV chosen, nothing
    started; and a pattern for output paths. *)
Definition sample_window : Main.window :=
  Main.Window ["a"; "b"; "c"] "" "downloads" 3 0 None true false.

Definition sample_outtmpl (folder : string) : string :=
  (folder ++ "/%(title)s [%(id)s].%(ext)s")%string.

(** * Proofs *)

(** ** Substrings *)

Lemma prefix_append (s t : string) : prefix s (s ++ t)%string = true.
Proof.
  induction s as [|a s IH]; simpl.
  - destruct t; reflexivity.
  - destruct (ascii_dec a a) as [_|ne]; [exact IH | now destruct ne].
Qed.

Lemma prefix_split (s h : string) :
  prefix s h = true -> exists t, h = (s ++ t)%string.
Proof.
  revert h; induction s as [|a s IH]; intros h H.
  - exists h; reflexivity.
  - destruct h as [|b h]; simpl in H; [discriminate|].
    destruct (ascii_dec a b) as [->|]; [|discriminate].
    destruct (IH h H) as [t ->]. exists t; reflexivity.
Qed.

Lemma contains_prefix (s h : string) : prefix s h = true -> contains s h = true.
Proof.
  destruct h; simpl; intros H; [exact H | now rewrite H].
Qed.

Lemma contains_append (a s b : string) :
  contains s (a ++ s ++ b)%string = true.
Proof.
  induction a as [|c a IH]; simpl.
  - apply contains_prefix, prefix_append.
  - rewrite IH. apply orb_true_r.
Qed.

Lemma append_assoc (a b c : string) :
  ((a ++ b) ++ c = a ++ b ++ c)%string.
Proof. induction a as [|x a IH]; cbn; [reflexivity|now rewrite IH]. Qed.

Lemma contains_split (s h : string) :
  contains s h = true -> exists a b, h = (a ++ s ++ b)%string.
Proof.
  induction h as [|c h IH]; cbn [contains]; intros H.
  - destruct (prefix_split _ _ H) as [t E]. exists EmptyString, t. exact E.
  - apply orb_true_iff in H as [H|H].
    + destruct (prefix_split _ _ H) as [t E]. exists EmptyString, t. exact E.
    + destruct (IH H) as (a & b & ->). exists (String c a), b. reflexivity.
Qed.

(** ** build_format *)

Lemma build_format_capped (r : Z) :
  r <> 0%Z ->
  build_format (Some r)
  = ("bv*[height<=" ++ decimal r ++ "]+ba/b[height<=" ++ decimal r ++ "]")%string.
Proof.
  intros H. unfold build_format, cap_truthy.
  destruct (Z.eqb_spec r 0) as [E|_]; [contradiction|reflexivity].
Qed.

Lemma build_format_uncapped (max_res : option Z) :
  max_res = None \/ max_res = Some 0%Z -> build_format max_res = "bv*+ba/b".
Proof. intros [->| ->]; reflexivity. Qed.

(** ** human_bytes *)

(** The recursion on the bound is the loop: it satisfies the loop's
    unfolding equation at every counter value. *)
Lemma scale_loop (n : Q) (i : nat) :
  scale (length units - 1 - i) n i
  = if Qle_bool 1024 n && (i <? length units - 1)%nat
    then scale (length units - 1 - S i) (n / 1024)%Q (S i)
    else (n, i).
Proof.
  destruct (Nat.ltb_spec i (length units - 1)) as [Hlt|Hge].
  - replace (length units - 1 - i) with (S (length units - 1 - S i)) by lia.
    cbn [scale]. apply Nat.ltb_lt in Hlt. rewrite Hlt. reflexivity.
  - replace (length units - 1 - i) with 0 by lia.
    rewrite andb_false_r. reflexivity.
Qed.

Lemma divided_succ (k : nat) (n : Q) :
  divided (S k) n = divided k (n / 1024)%Q.
Proof.
  unfold divided. induction k as [|k IH]; [reflexivity|].
  rewrite Nat.iter_succ, IH. reflexivity.
Qed.

Lemma scale_spec (fuel : nat) : forall (n : Q) (i : nat),
  exists k,
    k <= fuel /\
    scale fuel n i = (divided k n, i + k) /\
    (forall m, m < k -> (1024 <= divided m n)%Q /\ i + m < length units - 1) /\
    (k = fuel \/ ~ (1024 <= divided k n)%Q \/ ~ i + k < length units - 1).
Proof.
  induction fuel as [|fuel IH]; intros n i.
  - exists 0. split; [lia|]. split; [|split].
    + cbn [scale]. now rewrite Nat.add_0_r.
    + intros m Hm. lia.
    + now left.
  - cbn [scale].
    destruct (Qle_bool 1024 n && (i <? length units - 1)%nat) eqn:G.
    + apply andb_true_iff in G as [G1 G2].
      apply Qle_bool_iff in G1. apply Nat.ltb_lt in G2.
      destruct (IH (n / 1024)%Q (S i)) as (k & Hk & E & Hbelow & Hstop).
      exists (S k). rewrite divided_succ. split; [lia|]. split; [|split].
      * rewrite E. f_equal. lia.
      * intros [|m] Hm.
        -- split; [exact G1|lia].
        -- rewrite divided_succ.
           destruct (Hbelow m) as [H1 H2]; [lia|]. split; [exact H1|lia].
      * destruct Hstop as [->|[H|H]]; [now left|right; now left|].
        right; right. intros H'. apply H. lia.
    + exists 0. split; [lia|]. split; [|split].
      * now rewrite Nat.add_0_r.
      * intros m Hm. lia.
      * right. apply andb_false_iff in G as [G|G].
        -- left. intros H. change (divided 0 n) with n in H.
           apply Qle_bool_iff in H. congruence.
        -- right. rewrite Nat.add_0_r. intros H. apply Nat.ltb_lt in H.
           congruence.
Qed.

Lemma divided_positive (k : nat) (q : Q) : (0 < q)%Q -> (0 < divided k q)%Q.
Proof.
  revert q; induction k as [|k IH]; intros q Hq; [exact Hq|].
  rewrite divided_succ. apply IH. unfold Qdiv.
  apply Qmult_lt_0_compat; [exact Hq|reflexivity].
Qed.

Lemma human_bytes_nonpositive (q : Q) :
  (q <= 0)%Q -> human_bytes (Some q) = "0 B".
Proof.
  intros H. unfold human_bytes.
  apply Qle_bool_iff in H. rewrite H, orb_true_r. reflexivity.
Qed.

Lemma human_bytes_positive (q : Q) :
  (0 < q)%Q ->
  exists k,
    k <= 4 /\
    human_bytes (Some q)
    = (format_1f (divided k q) ++ " " ++ nth k units "")%string /\
    (forall m, m < k -> (1024 <= divided m q)%Q) /\
    (k = 4 \/ (divided k q < 1024)%Q).
Proof.
  intros Hq. unfold human_bytes.
  assert (G : Qeq_bool q 0 || Qle_bool q 0 = false).
  { apply orb_false_iff. split.
    - destruct (Qeq_bool q 0) eqn:E; [|reflexivity].
      apply Qeq_bool_iff in E. rewrite E in Hq. now apply Qlt_irrefl in Hq.
    - destruct (Qle_bool q 0) eqn:E; [|reflexivity].
      apply Qle_bool_iff in E. now apply Qlt_not_le in Hq. }
  rewrite G.
  destruct (scale_spec (length units - 1) q 0) as (k & Hk & E & Hbelow & Hstop).
  rewrite E. cbn [length units Nat.sub] in *. exists k. repeat split.
  - exact Hk.
  - intros m Hm. now apply Hbelow.
  - destruct Hstop as [->|[H|H]]; [now left| |left; simpl in H; lia].
    right. now apply Qnot_le_lt.
Qed.

(** Rounding moves a value by at most one half. *)
Lemma round_half_even_near (x : Q) :
  (inject_Z (round_half_even x) - (1 # 2) <= x
   /\ x <= inject_Z (round_half_even x) + (1 # 2))%Q.
Proof.
  unfold round_half_even.
  pose proof (Qfloor_le x) as Hlo. pose proof (Qlt_floor x) as Hhi.
  rewrite inject_Z_plus in Hhi. change (inject_Z 1) with 1%Q in Hhi.
  set (f := Qfloor x) in *.
  assert (Hup : (inject_Z (f + 1) == inject_Z f + 1)%Q)
    by (rewrite inject_Z_plus; reflexivity).
  destruct (Qcompare_spec (x - inject_Z f) (1 # 2)) as [E|L|G].
  - destruct (Z.even f); [|rewrite Hup]; split; lra.
  - split; lra.
  - rewrite Hup. split; lra.
Qed.

(** The formatted text of a non-negative value shows the value rounded to
    tenths: an integer part and exactly one decimal digit. *)
Lemma format_1f_one_decimal (x : Q) :
  (0 <= x)%Q ->
  exists t : Z,
    format_1f x = (decimal (t / 10) ++ "." ++ decimal (t mod 10))%string /\
    (0 <= t mod 10 < 10)%Z /\
    (inject_Z t - (1 # 2) <= x * 10 /\ x * 10 <= inject_Z t + (1 # 2))%Q.
Proof.
  intros Hx. exists (round_half_even (Qabs x * 10)).
  unfold format_1f. apply Qle_bool_iff in Hx as Hb. rewrite Hb.
  split; [reflexivity|]. split; [apply Z.mod_pos_bound; lia|].
  pose proof (round_half_even_near (Qabs x * 10)) as [H1 H2].
  pose proof (Qabs_pos x Hx) as E.
  set (t := inject_Z (round_half_even (Qabs x * 10))) in *.
  split; lra.
Qed.

(** ** Counting and ordering in traces *)

Lemma count_app {A} (f : A -> bool) (l1 l2 : list A) :
  count f (l1 ++ l2) = count f l1 + count f l2.
Proof. unfold count. now rewrite filter_app, length_app. Qed.

Lemma count_none {A} (f : A -> bool) (l : list A) :
  Forall (fun x => f x = false) l -> count f l = 0.
Proof.
  unfold count. induction 1 as [|x l Hx _ IH]; cbn [filter]; [reflexivity|].
  now rewrite Hx.
Qed.

Lemma count_all {A} (f : A -> bool) (l : list A) :
  Forall (fun x => f x = true) l -> count f l = length l.
Proof.
  unfold count. induction 1 as [|x l Hx _ IH]; cbn [filter]; [reflexivity|].
  rewrite Hx. cbn [length]. now rewrite IH.
Qed.

Lemma StronglySorted_app {A} (R : A -> A -> Prop) (l1 l2 : list A) :
  StronglySorted R l1 -> StronglySorted R l2 ->
  (forall x y, In x l1 -> In y l2 -> R x y) ->
  StronglySorted R (l1 ++ l2).
Proof.
  induction 1 as [|x l1 H1 IH Hx]; intros H2 Hcross; [exact H2|].
  cbn [app]. constructor.
  - apply IH; [exact H2|]. intros a b Ha Hb. apply Hcross; [now right|exact Hb].
  - apply Forall_app. split; [exact Hx|].
    apply Forall_forall. intros y Hy. apply Hcross; [now left|exact Hy].
Qed.

Lemma StronglySorted_uniform {A} (R : A -> A -> Prop) (l : list A) :
  (forall x y, In x l -> In y l -> R x y) -> StronglySorted R l.
Proof.
  induction l as [|x l IH]; intros H; constructor.
  - apply IH. intros a b Ha Hb. apply H; now right.
  - apply Forall_forall. intros y Hy. apply H; [now left|now right].
Qed.

(** ** One item *)

(** Splits the Starting signal off the front of an item's signals, so that
    counting can go through the parts. *)
Ltac peel_starting :=
  match goal with
  | |- context [sig_update ?i starting :: ?l] =>
      change (sig_update i starting :: l) with ([sig_update i starting] ++ l)
  end.

Lemma run_item_shape (i : nat) (s : session) :
  run_item i s
  = sig_update i starting
      :: probe_events i (extract_info s) ++ download_events i s
      ++ [closing i s].
Proof.
  unfold run_item, attempt, closing.
  destruct (download s) as [e|]; cbn [fst snd]; f_equal.
  - now rewrite <- app_assoc.
  - now rewrite app_nil_r, <- app_assoc.
Qed.

Lemma hook_payloads (i : nat) (d : progress_dict) :
  each_payload i (fun p => is_terminal p = false /\ has_title p = false
                           /\ has_status "Error" p = false) (hook i d).
Proof.
  unfold hook, each_payload. destruct (d_status d) as [st|]; [|constructor].
  destruct (st =? "downloading")%string.
  - destruct (hook_pct d) as [pct|]; [|constructor].
    constructor; [|constructor]. eexists; split; [reflexivity|]. now cbn.
  - destruct (st =? "finished")%string; [|constructor].
    constructor; [|constructor]. eexists; split; [reflexivity|]. now cbn.
Qed.

Lemma download_payloads (i : nat) (s : session) :
  each_payload i (fun p => is_terminal p = false /\ has_title p = false
                           /\ has_status "Error" p = false)
    (download_events i s).
Proof.
  unfold download_events, each_payload.
  induction (callbacks s) as [|d ds IH]; cbn [flat_map]; [constructor|].
  apply Forall_app. split; [apply hook_payloads|exact IH].
Qed.

Lemma probe_payloads (i : nat) (r : probe_result) :
  each_payload i (fun p => is_terminal p = false
                           /\ has_status "Error" p = false)
    (probe_events i r).
Proof.
  unfold probe_events, each_payload.
  destruct r as [e|[info|]]; try constructor.
  destruct (info_title info) as [t|]; [|constructor].
  destruct (t =? "")%string; constructor; [|constructor].
  eexists; split; [reflexivity|]. now cbn.
Qed.

Lemma closing_payload (i : nat) (s : session) :
  exists p, closing i s = sig_update i p /\ is_terminal p = true
            /\ has_title p = false.
Proof.
  unfold closing. destruct (download s) as [[m|m]|]; cbn [handler];
    eexists; (split; [reflexivity|]); now cbn.
Qed.

Lemma each_payload_weaken (i : nat) (P Q : payload -> Prop) (l : list signal) :
  (forall p, P p -> Q p) -> each_payload i P l -> each_payload i Q l.
Proof.
  intros H. unfold each_payload. apply Forall_impl.
  intros sg (p & -> & Hp). exists p. split; [reflexivity|]. now apply H.
Qed.

Lemma run_item_about (i : nat) (s : session) :
  Forall (fun sg => about i sg = true) (run_item i s).
Proof.
  rewrite run_item_shape. constructor; [cbn; apply Nat.eqb_refl|].
  apply Forall_app. split; [|apply Forall_app; split].
  - generalize (probe_payloads i (extract_info s)). apply Forall_impl.
    intros sg (p & -> & _). cbn. apply Nat.eqb_refl.
  - generalize (download_payloads i s). apply Forall_impl.
    intros sg (p & -> & _). cbn. apply Nat.eqb_refl.
  - constructor; [|constructor].
    destruct (closing_payload i s) as (p & -> & _). cbn. apply Nat.eqb_refl.
Qed.

(** The signals between Starting and the closing signal are not terminal. *)
Lemma middle_not_terminal (i : nat) (s : session) :
  Forall (fun sg => is_terminal_signal sg = false)
    (probe_events i (extract_info s) ++ download_events i s).
Proof.
  apply Forall_app. split.
  - generalize (probe_payloads i (extract_info s)). apply Forall_impl.
    now intros sg (p & -> & H & _).
  - generalize (download_payloads i s). apply Forall_impl.
    now intros sg (p & -> & H & _).
Qed.

Lemma run_item_terminals (i j : nat) (s : session) :
  count (terminal_of j) (run_item i s) = if (i =? j)%nat then 1 else 0.
Proof.
  rewrite run_item_shape.
  peel_starting.
  rewrite !count_app.
  rewrite (count_none _ (probe_events _ _)), (count_none _ (download_events _ _)).
  - destruct (closing_payload i s) as (p & -> & Hp & _).
    unfold count. cbn. rewrite Hp, andb_true_r, andb_false_r.
    now destruct (i =? j)%nat.
  - generalize (download_payloads i s). apply Forall_impl.
    intros sg (p & -> & H & _). cbn. now rewrite H, andb_false_r.
  - generalize (probe_payloads i (extract_info s)). apply Forall_impl.
    intros sg (p & -> & H & _). cbn. now rewrite H, andb_false_r.
Qed.

Lemma run_item_terminal_total (i : nat) (s : session) :
  count is_terminal_signal (run_item i s) = 1.
Proof.
  rewrite run_item_shape.
  peel_starting.
  destruct (proj1 (Forall_app _ _ _) (middle_not_terminal i s)) as [Hp Hd].
  rewrite !count_app, (count_none _ _ Hp), (count_none _ _ Hd).
  destruct (closing_payload i s) as (p & -> & Hc & _).
  unfold count. cbn. now rewrite Hc.
Qed.

(** ** The queue, item after item *)

Section Queue.

Variable ydl : ydl_opts -> nat -> string -> session.

Lemma items_from_stop (w : DLWorker) (i : nat) (rs : list row) :
  items_from ydl (stop w) i rs = items_from ydl w i rs.
Proof. revert i; induction rs as [|r rs IH]; intros i; cbn; now rewrite ?IH. Qed.

Lemma cost_from_stop (w : DLWorker) (i : nat) (rs : list row) :
  cost_from ydl (stop w) i rs = cost_from ydl w i rs.
Proof. revert i; induction rs as [|r rs IH]; intros i; cbn; now rewrite ?IH. Qed.

Lemma upto_stop (w : DLWorker) (k : nat) : upto ydl (stop w) k = upto ydl w k.
Proof. apply items_from_stop. Qed.

Lemma items_from_app (w : DLWorker) (rs1 rs2 : list row) : forall i,
  items_from ydl w i (rs1 ++ rs2)
  = items_from ydl w i rs1 ++ items_from ydl w (i + length rs1) rs2.
Proof.
  induction rs1 as [|r rs1 IH]; intros i; cbn [items_from app length].
  - now rewrite Nat.add_0_r.
  - rewrite IH, <- app_assoc. do 3 f_equal. lia.
Qed.

Lemma firstn_snoc (rs : list row) (i : nat) (r : row) :
  nth_error rs i = Some r -> firstn (S i) rs = firstn i rs ++ [r].
Proof.
  revert i; induction rs as [|x rs IH]; intros [|i] H; cbn in *;
    try discriminate.
  - now injection H as ->.
  - now rewrite (IH i H).
Qed.

Lemma skipn_cons (rs : list row) (i : nat) (r : row) :
  nth_error rs i = Some r -> skipn i rs = r :: skipn (S i) rs.
Proof.
  revert i; induction rs as [|x rs IH]; intros [|i] H; cbn in *;
    try discriminate.
  - now injection H as ->.
  - now rewrite (IH i H).
Qed.

Lemma upto_succ (w : DLWorker) (i : nat) (r : row) :
  nth_error (rows w) i = Some r ->
  upto ydl w (S i) = upto ydl w i ++ run_item i (session_of ydl w i r).
Proof.
  intros H. unfold upto. rewrite (firstn_snoc _ _ _ H), items_from_app.
  assert (i < length (rows w)) by (apply nth_error_Some; congruence).
  rewrite length_firstn, Nat.min_l by lia.
  cbn [items_from Nat.add]. now rewrite app_nil_r.
Qed.

Lemma upto_all (w : DLWorker) :
  upto ydl w (length (rows w)) = items_from ydl w 0 (rows w).
Proof. unfold upto. now rewrite firstn_all. Qed.

Lemma items_from_not_before (w : DLWorker) (rs : list row) : forall i,
  Forall (not_before i) (items_from ydl w i rs).
Proof.
  induction rs as [|r rs IH]; intros i; cbn [items_from]; [constructor|].
  apply Forall_app. split.
  - generalize (run_item_about i (session_of ydl w i r)). apply Forall_impl.
    intros [j p|]; cbn; [|discriminate]. intros H.
    apply Nat.eqb_eq in H. lia.
  - generalize (IH (S i)). apply Forall_impl.
    intros [j p|]; cbn; [lia|tauto].
Qed.

Lemma items_from_terminals (w : DLWorker) (rs : list row) (j : nat) : forall i,
  count (terminal_of j) (items_from ydl w i rs)
  = if (i <=? j)%nat && (j <? i + length rs)%nat then 1 else 0.
Proof.
  induction rs as [|r rs IH]; intros i; cbn [items_from length].
  - destruct (Nat.leb_spec i j), (Nat.ltb_spec j (i + 0)); cbn; lia.
  - rewrite count_app, run_item_terminals, IH.
    destruct (Nat.eqb_spec i j), (Nat.leb_spec i j), (Nat.leb_spec (S i) j),
      (Nat.ltb_spec j (i + S (length rs))),
      (Nat.ltb_spec j (S i + length rs)); cbn; lia.
Qed.

Lemma items_from_terminal_total (w : DLWorker) (rs : list row) : forall i,
  count is_terminal_signal (items_from ydl w i rs) = length rs.
Proof.
  induction rs as [|r rs IH]; intros i; cbn [items_from length];
    [reflexivity|].
  now rewrite count_app, run_item_terminal_total, IH.
Qed.

Lemma items_from_silent (w : DLWorker) (rs : list row) (i j : nat) :
  j < i -> count (about j) (items_from ydl w i rs) = 0.
Proof.
  intros H. apply count_none.
  generalize (items_from_not_before w rs i). apply Forall_impl.
  intros [k p|]; cbn; [|reflexivity]. intros Hk. apply Nat.eqb_neq. lia.
Qed.

Lemma items_from_beyond (w : DLWorker) (rs : list row) (j : nat) : forall i,
  i + length rs <= j -> count (about j) (items_from ydl w i rs) = 0.
Proof.
  induction rs as [|r rs IH]; intros i H; cbn [items_from length] in *;
    [reflexivity|].
  rewrite count_app, IH by lia. rewrite Nat.add_0_r.
  apply count_none.
  generalize (run_item_about i (session_of ydl w i r)). apply Forall_impl.
  intros [k p|]; cbn; [|reflexivity]. intros Hk.
  apply Nat.eqb_eq in Hk. apply Nat.eqb_neq. lia.
Qed.

Lemma items_from_no_done (w : DLWorker) (rs : list row) (i : nat) :
  count is_done (items_from ydl w i rs) = 0.
Proof.
  apply count_none.
  generalize (items_from_not_before w rs i). apply Forall_impl.
  intros [k p|]; cbn; [reflexivity|tauto].
Qed.

Lemma items_from_sorted (w : DLWorker) (rs : list row) : forall i,
  StronglySorted in_order (items_from ydl w i rs ++ [sig_done]).
Proof.
  induction rs as [|r rs IH]; intros i; cbn [items_from app].
  - repeat constructor.
  - rewrite <- app_assoc. apply StronglySorted_app.
    + apply StronglySorted_uniform. intros x y Hx Hy.
      pose proof (run_item_about i (session_of ydl w i r)) as H.
      rewrite Forall_forall in H.
      apply H in Hx, Hy. destruct x as [a p|], y as [b q|]; cbn in *;
        try discriminate.
      apply Nat.eqb_eq in Hx, Hy. lia.
    + apply IH.
    + intros x y Hx Hy.
      pose proof (run_item_about i (session_of ydl w i r)) as H.
      rewrite Forall_forall in H. apply H in Hx.
      destruct x as [a p|]; cbn in Hx; [|discriminate].
      apply Nat.eqb_eq in Hx. subst a.
      apply in_app_or in Hy as [Hy|[<-|[]]]; [|exact I].
      pose proof (items_from_not_before w rs (S i)) as H'.
      rewrite Forall_forall in H'. apply H' in Hy.
      destruct y as [b q|]; cbn in *; [lia|exact I].
Qed.

(** What a trace that stops after [k] items looks like. *)
Lemma upto_trace (w : DLWorker) (k : nat) :
  k <= length (rows w) ->
  let tr := upto ydl w k ++ [sig_done] in
  (forall i, i < k -> count (terminal_of i) tr = 1) /\
  (forall i, k <= i -> count (about i) tr = 0) /\
  count is_terminal_signal tr = k /\
  count is_done tr = 1 /\
  last tr sig_done = sig_done /\
  StronglySorted in_order tr.
Proof.
  intros Hk tr. subst tr. unfold upto.
  assert (Hlen : length (firstn k (rows w)) = k)
    by (rewrite length_firstn; lia).
  repeat split.
  - intros i Hi. rewrite count_app, items_from_terminals, Hlen.
    destruct (Nat.ltb_spec i (0 + k)); [reflexivity|lia].
  - intros i Hi. rewrite count_app, items_from_beyond by (rewrite Hlen; lia).
    reflexivity.
  - rewrite count_app, items_from_terminal_total, Hlen. cbn. lia.
  - rewrite count_app, items_from_no_done. reflexivity.
  - apply last_last.
  - apply items_from_sorted.
Qed.

End Queue.

(** ** The run, step by step *)

Section Steps.

Variable ydl : ydl_opts -> nat -> string -> session.

Lemma step_self (c : config) : self (step ydl c) = self c.
Proof.
  unfold step. destruct (pc c) as [i|i [|sg pending]| |]; try reflexivity.
  destruct (nth_error (rows (self c)) i); [|reflexivity].
  now destruct (_stop (self c)).
Qed.

Lemma exec_cons (a : action) (sched : list action) (c : config) :
  exec ydl (a :: sched) c = exec ydl sched (perform ydl c a).
Proof. reflexivity. Qed.

Lemma exec_app (s1 s2 : list action) (c : config) :
  exec ydl (s1 ++ s2) c = exec ydl s2 (exec ydl s1 c).
Proof. apply fold_left_app. Qed.

Lemma exec_work_self (n : nat) : forall c,
  self (exec ydl (repeat Work n) c) = self c.
Proof.
  induction n as [|n IH]; intros c; [reflexivity|].
  cbn [repeat]. rewrite exec_cons, IH. apply step_self.
Qed.

(** Once set, the flag stays set, whatever happens next. *)
Lemma exec_keeps_stop (sched : list action) : forall c,
  _stop (self c) = true -> _stop (self (exec ydl sched c)) = true.
Proof.
  induction sched as [|a sched IH]; intros c H; [exact H|].
  rewrite exec_cons. apply IH.
  destruct a; cbn [perform]; [now rewrite step_self|reflexivity].
Qed.

(** A worker step does not change where the run will end. *)
Lemma final_step (c : config) : final ydl (step ydl c) = final ydl c.
Proof.
  unfold step, final. destruct c as [w [i|i [|sg pending]| |] em]; cbn.
  - destruct (nth_error (rows w) i) as [r|] eqn:E.
    + destruct (_stop w) eqn:Hs; cbn; rewrite ?Hs; [reflexivity|].
      rewrite (skipn_cons _ _ _ E). cbn [items_from].
      now rewrite <- !app_assoc.
    + cbn. apply nth_error_None in E. rewrite skipn_all2 by exact E.
      now destruct (_stop w).
  - reflexivity.
  - now rewrite <- app_assoc.
  - reflexivity.
  - reflexivity.
Qed.

Lemma final_stop_again (c : config) :
  _stop (self c) = true -> final ydl (request_stop c) = final ydl c.
Proof.
  destruct c as [[rs o fl] p em]; cbn. intros ->. reflexivity.
Qed.

Lemma final_exec_work (n : nat) : forall c,
  final ydl (exec ydl (repeat Work n) c) = final ydl c.
Proof.
  induction n as [|n IH]; intros c; [reflexivity|].
  cbn [repeat]. rewrite exec_cons, IH. apply final_step.
Qed.

Lemma final_exec_stopped (sched : list action) : forall c,
  _stop (self c) = true -> final ydl (exec ydl sched c) = final ydl c.
Proof.
  induction sched as [|a sched IH]; intros c H; [reflexivity|].
  rewrite exec_cons. destruct a; cbn [perform].
  - rewrite IH by (now rewrite step_self). apply final_step.
  - rewrite IH by reflexivity. now apply final_stop_again.
Qed.

Lemma final_halted (c : config) : pc c = Halted -> final ydl c = emitted c.
Proof. unfold final. now intros ->. Qed.

(** Every worker step short of the end uses up one unit of [todo]. *)
Lemma todo_step (c : config) :
  pc c <> Halted -> S (todo ydl (step ydl c)) = todo ydl c.
Proof.
  unfold step, todo. destruct c as [w [i|i [|sg pending]| |] em];
    cbn [pc self emitted]; intros H; try congruence.
  - destruct (nth_error (rows w) i) as [r|] eqn:E.
    + destruct (_stop w) eqn:Hs; cbn [pc self emitted]; rewrite ?Hs;
        [reflexivity|].
      rewrite (skipn_cons _ _ _ E). cbn [cost_from]. lia.
    + cbn [pc self emitted]. apply nth_error_None in E.
      rewrite skipn_all2 by exact E. now destruct (_stop w).
  - cbn [length]. lia.
  - cbn [length]. lia.
Qed.

Lemma todo_halted (c : config) : todo ydl c = 0 -> pc c = Halted.
Proof.
  unfold todo. destruct (pc c); intros H; try reflexivity; lia.
Qed.

Lemma todo_stop (c : config) : todo ydl (request_stop c) <= todo ydl c.
Proof.
  unfold todo. destruct c as [w p em]; cbn.
  destruct p; destruct (_stop w); rewrite ?cost_from_stop; lia.
Qed.

Lemma todo_step_le (c : config) :
  todo ydl (step ydl c) <= pred (todo ydl c).
Proof.
  destruct (pc c) eqn:P.
  4: { unfold step. rewrite P. unfold todo. rewrite P. lia. }
  all: pose proof (todo_step c) as T; rewrite P in T;
    specialize (T ltac:(discriminate)); lia.
Qed.

(** [run] returns: a schedule with enough worker steps ends halted, no
    matter where the stop requests fall. *)
Lemma exec_halts (sched : list action) : forall c,
  todo ydl c <= count is_work sched -> pc (exec ydl sched c) = Halted.
Proof.
  induction sched as [|a sched IH]; intros c H.
  - apply todo_halted. unfold count in H. cbn [filter length] in H.
    change (exec ydl [] c) with c. lia.
  - rewrite exec_cons. apply IH. unfold count in *.
    destruct a; cbn [perform filter is_work length] in *.
    + pose proof (todo_step_le c). lia.
    + pose proof (todo_stop c). lia.
Qed.

Lemma count_work_repeat (n : nat) : count is_work (repeat Work n) = n.
Proof.
  unfold count. induction n as [|n IH]; cbn; [reflexivity|now rewrite IH].
Qed.

Lemma consistent_step (c : config) :
  consistent ydl c -> consistent ydl (step ydl c).
Proof.
  unfold consistent, step. destruct c as [w [i|i [|sg pending]| |] em];
    cbn [pc self emitted].
  - intros [Hi He].
    destruct (nth_error (rows w) i) as [r|] eqn:E.
    + destruct (_stop w) eqn:Hs; cbn [pc self emitted].
      * exists i. split; [split; [exact Hi|congruence]|exact He].
      * split; [apply nth_error_Some; congruence|].
        now rewrite He, (upto_succ ydl w i r E).
    + cbn [pc self emitted]. apply nth_error_None in E. exists i.
      split; [split; [exact Hi|lia]|exact He].
  - intros [Hi He]. split; [lia|]. now rewrite app_nil_r in He.
  - intros [Hi He]. split; [exact Hi|]. now rewrite <- app_assoc.
  - intros (k & Hk & He). exists k. split; [exact Hk|now rewrite He].
  - trivial.
Qed.

Lemma consistent_work (n : nat) : forall c,
  consistent ydl c -> consistent ydl (exec ydl (repeat Work n) c).
Proof.
  induction n as [|n IH]; intros c H; [exact H|].
  cbn [repeat]. rewrite exec_cons. now apply IH, consistent_step.
Qed.

Lemma consistent_start (w : DLWorker) : consistent ydl (start w).
Proof.
  unfold consistent, start; cbn [pc self emitted]. split; [lia|reflexivity].
Qed.

Lemma consistent_stop (c : config) :
  consistent ydl c -> consistent ydl (request_stop c).
Proof.
  unfold consistent, request_stop, settled.
  destruct c as [w [i|i pending| |] em]; cbn [pc self emitted stop rows _stop];
    rewrite ?upto_stop; try tauto.
  - intros (k & [Hk _] & He). exists k. rewrite upto_stop.
    split; [split; [exact Hk|discriminate]|exact He].
  - intros (k & [Hk _] & He). exists k. rewrite upto_stop.
    split; [split; [exact Hk|discriminate]|exact He].
Qed.

Lemma consistent_exec (sched : list action) : forall c,
  consistent ydl c -> consistent ydl (exec ydl sched c).
Proof.
  induction sched as [|a sched IH]; intros c H; [exact H|].
  rewrite exec_cons. apply IH. destruct a; cbn [perform].
  - now apply consistent_step.
  - now apply consistent_stop.
Qed.

(** However stop requests fall, a run that has returned emitted the
    signals of the first [k] rows, for some [k], and then [sig_done]. *)
Lemma halted_shape (sched : list action) (w : DLWorker) :
  pc (exec ydl sched (start w)) = Halted ->
  exists k, k <= length (rows w)
            /\ emitted (exec ydl sched (start w)) = upto ydl w k ++ [sig_done].
Proof.
  intros Hpc.
  pose proof (consistent_exec sched (start w) (consistent_start w)) as H.
  assert (Hrows : forall sc c, rows (self (exec ydl sc c)) = rows (self c)
                               /\ opts (self (exec ydl sc c)) = opts (self c)).
  { induction sc as [|a sc IH]; intros c; [now split|].
    rewrite exec_cons. destruct (IH (perform ydl c a)) as [-> ->].
    destruct a; cbn [perform]; [now rewrite step_self|now split]. }
  destruct (Hrows sched (start w)) as [Hr Ho].
  unfold consistent in H. rewrite Hpc in H. destruct H as (k & [Hk _] & He).
  exists k. rewrite Hr in Hk. split; [exact Hk|]. rewrite He. f_equal.
  unfold upto. rewrite Hr. cbn [start self].
  generalize (firstn k (rows w)) 0. intros rs.
  induction rs as [|r rs IH]; intros i; [reflexivity|].
  cbn [items_from]. rewrite IH. unfold session_of. now rewrite Ho.
Qed.

Lemma begun_bound (c : config) :
  consistent ydl c -> begun c <= length (rows (self c)).
Proof.
  unfold consistent, begun. destruct (pc c); intros H; try lia.
  all: destruct H; lia.
Qed.

(** Where a run ends when the stop request arrives at [c]. *)
Lemma final_after_stop (c : config) :
  consistent ydl c -> _stop (self c) = false ->
  final ydl (request_stop c) = upto ydl (self c) (begun c) ++ [sig_done].
Proof.
  unfold consistent, final, begun, request_stop.
  destruct c as [w [i|i pending| |] em]; cbn [pc self emitted _stop stop].
  - intros [_ ->] _. reflexivity.
  - intros [_ <-] _. now rewrite <- app_assoc.
  - intros (k & [_ Hk] & ->) Hs. now rewrite (Hk Hs).
  - intros (k & [_ Hk] & ->) Hs. now rewrite (Hk Hs).
Qed.

(** Inside an item the flag is not read: a stop request and a worker
    step commute there. *)
Lemma step_mid_item (w : DLWorker) (i : nat) (pending em : list signal) :
  step ydl (request_stop (Config w (InItem i pending) em))
  = request_stop (step ydl (Config w (InItem i pending) em)).
Proof. destruct pending; reflexivity. Qed.

(** One whole iteration, from the stop test back to the loop head. *)
Lemma exec_item (w : DLWorker) (i : nat) (r : row) (em : list signal) :
  nth_error (rows w) i = Some r -> _stop w = false ->
  exec ydl (repeat Work (length (run_item i (session_of ydl w i r)) + 2))
    (Config w (Check i) em)
  = Config w (Check (S i)) (em ++ run_item i (session_of ydl w i r)).
Proof.
  intros E Hs.
  assert (Hdrain : forall pending em',
    exec ydl (repeat Work (length pending + 1)) (Config w (InItem i pending) em')
    = Config w (Check (S i)) (em' ++ pending)).
  { induction pending as [|sg pending IH]; intros em'.
    - cbn. now rewrite app_nil_r.
    - cbn [length Nat.add repeat]. rewrite exec_cons.
      cbn [perform step pc self emitted]. rewrite IH.
      now rewrite <- app_assoc. }
  replace (length (run_item i (session_of ydl w i r)) + 2)
    with (S (length (run_item i (session_of ydl w i r)) + 1)) by lia.
  cbn [repeat]. rewrite exec_cons.
  cbn [perform step pc self emitted]. rewrite E, Hs. apply Hdrain.
Qed.

End Steps.

(** ** Floating point *)

Lemma pow2_positive (k : Z) : (0 < pow2 k)%Q.
Proof. apply Qpower_0_lt. reflexivity. Qed.

Lemma pow2_add (a b : Z) : (pow2 (a + b) == pow2 a * pow2 b)%Q.
Proof. apply Qpower_plus. discriminate. Qed.

Lemma pow2_le (a b : Z) : (a <= b)%Z -> (pow2 a <= pow2 b)%Q.
Proof. intros H. apply Qpower_le_compat_l; [exact H|discriminate]. Qed.

Lemma pow2_lt_inv (a b : Z) : (pow2 a < pow2 b)%Q -> (a < b)%Z.
Proof. intros H. apply (Qpower_lt_compat_l_inv 2); [exact H|reflexivity]. Qed.

Lemma pow2_int (k : Z) : (0 <= k)%Z -> (pow2 k == inject_Z (2 ^ k))%Q.
Proof. intros H. unfold pow2. now rewrite Zpower_Qpower. Qed.

Lemma pow2_cancel (u : Z) : (pow2 (- u) * pow2 u == 1)%Q.
Proof. rewrite <- pow2_add. now replace (- u + u)%Z with 0%Z by lia. Qed.

#[local] Instance round_half_even_comp : Proper (Qeq ==> eq) round_half_even.
Proof.
  intros x y E. unfold round_half_even.
  rewrite (Qfloor_comp _ _ E).
  assert (H : ((x - inject_Z (Qfloor y) ?= 1 # 2) = (y - inject_Z (Qfloor y) ?= 1 # 2))%Q).
  { now rewrite E. }
  now rewrite H.
Qed.

Lemma round_half_even_int (k : Z) : round_half_even (inject_Z k) = k.
Proof.
  unfold round_half_even. rewrite Qfloor_Z.
  assert (H : ((inject_Z k - inject_Z k ?= 1 # 2) = Lt)%Q).
  { apply Qlt_alt. setoid_replace (inject_Z k - inject_Z k)%Q with 0%Q by ring.
    reflexivity. }
  now rewrite H.
Qed.

Lemma round_half_even_mono (x y : Q) :
  (x <= y)%Q -> (round_half_even x <= round_half_even y)%Z.
Proof.
  intros H. pose proof (Qfloor_resp_le _ _ H) as Hf.
  pose proof (Qfloor_le x) as Hx1. pose proof (Qlt_floor x) as Hx2.
  pose proof (Qfloor_le y) as Hy1. pose proof (Qlt_floor y) as Hy2.
  rewrite inject_Z_plus in Hx2, Hy2. change (inject_Z 1) with 1%Q in *.
  unfold round_half_even.
  destruct (Z.eq_dec (Qfloor x) (Qfloor y)) as [E|Hne].
  - rewrite E in *. set (f := Qfloor y) in *.
    destruct (Qcompare_spec (x - inject_Z f) (1 # 2)),
      (Qcompare_spec (y - inject_Z f) (1 # 2)),
      (Z.even f); try lia; exfalso; lra.
  - destruct (Qcompare_spec (x - inject_Z (Qfloor x)) (1 # 2)),
      (Qcompare_spec (y - inject_Z (Qfloor y)) (1 # 2)),
      (Z.even (Qfloor x)), (Z.even (Qfloor y)); lia.
Qed.

Lemma Qabs_positive (x : Q) : (0 < x)%Q -> Qabs x = x.
Proof.
  destruct x as [[|n|n] d]; unfold Qlt; cbn; intros H; try reflexivity; lia.
Qed.

(** The binade of a positive number holds it. *)
Lemma binade_spec (x : Q) :
  (0 < x)%Q -> (pow2 (binade x) <= x /\ x < pow2 (binade x + 1))%Q.
Proof.
  intros Hx. unfold binade.
  set (e0 := (Z.log2 (Qnum x) - Z.log2 (Z.pos (Qden x)))%Z).
  assert (Hn : (0 < Qnum x)%Z).
  { destruct x as [n d]. unfold Qlt in Hx. cbn in *. lia. }
  destruct (Z.log2_spec (Qnum x) Hn) as [Hn1 Hn2].
  destruct (Z.log2_spec (Z.pos (Qden x)) (Pos2Z.is_pos _)) as [Hd1 Hd2].
  pose proof (Z.log2_nonneg (Qnum x)) as Ln.
  pose proof (Z.log2_nonneg (Z.pos (Qden x))) as Ld.
  set (ln := Z.log2 (Qnum x)) in *. set (ld := Z.log2 (Z.pos (Qden x))) in *.
  rewrite Zle_Qle, <- pow2_int in Hn1, Hd1 by lia.
  rewrite Zlt_Qlt, <- pow2_int in Hn2, Hd2 by lia.
  assert (Ex : (x * inject_Z (Z.pos (Qden x)) == inject_Z (Qnum x))%Q).
  { destruct x as [n d]. unfold Qeq. cbn. lia. }
  set (N := inject_Z (Qnum x)) in *. set (D := inject_Z (Z.pos (Qden x))) in *.
  assert (HD : (0 < D)%Q) by (pose proof (pow2_positive ld); lra).
  assert (Hup : (x < pow2 (e0 + 1))%Q).
  { assert (E : (pow2 (Z.succ ln) == pow2 (e0 + 1) * pow2 ld)%Q).
    { rewrite <- pow2_add. now replace (e0 + 1 + ld)%Z with (Z.succ ln) by lia. }
    pose proof (pow2_positive (e0 + 1)). pose proof (pow2_positive ld). nra. }
  assert (Hlo : (pow2 (e0 - 1) <= x)%Q).
  { assert (E : (pow2 ln == pow2 (e0 - 1) * pow2 (Z.succ ld))%Q).
    { rewrite <- pow2_add. now replace (e0 - 1 + Z.succ ld)%Z with ln by lia. }
    pose proof (pow2_positive (e0 - 1)). pose proof (pow2_positive (Z.succ ld)).
    nra. }
  destruct (Qle_bool (pow2 e0) x) eqn:B.
  - apply Qle_bool_iff in B. split; assumption.
  - replace (e0 - 1 + 1)%Z with e0 by lia. split; [exact Hlo|].
    apply Qnot_le_lt. intros H. apply Qle_bool_iff in H. congruence.
Qed.

(** Around a positive number the spacing is 52 places below its leading
    bit, unless that is below the subnormal spacing. *)
Lemma ulp_exponent_normal (x : Q) :
  (0 < x)%Q -> (-1074 < ulp_exponent x)%Z ->
  (pow2 (ulp_exponent x + 52) <= x)%Q.
Proof.
  intros Hx Hu. unfold ulp_exponent in *. rewrite (Qabs_positive x Hx) in *.
  destruct (binade_spec x Hx) as [H _].
  replace (Z.max (binade x - 52) (-1074) + 52)%Z with (binade x) by lia.
  exact H.
Qed.

Lemma ulp_exponent_upper (x : Q) :
  (0 < x)%Q -> (x < pow2 (ulp_exponent x + 53))%Q.
Proof.
  intros Hx. unfold ulp_exponent. rewrite (Qabs_positive x Hx).
  destruct (binade_spec x Hx) as [_ H].
  eapply Qlt_le_trans; [exact H|]. apply pow2_le. lia.
Qed.

Lemma ulp_exponent_min (x : Q) : (-1074 <= ulp_exponent x)%Z.
Proof. unfold ulp_exponent. lia. Qed.

Lemma on_grid_mono (u : Z) (x y : Q) :
  (x <= y)%Q -> (on_grid u x <= on_grid u y)%Q.
Proof.
  intros H. unfold on_grid. pose proof (pow2_positive u).
  pose proof (pow2_positive (- u)).
  apply Qmult_le_compat_r; [|lra]. rewrite <- Zle_Qle.
  apply round_half_even_mono. nra.
Qed.

Lemma on_grid_fixed (u k : Z) : (on_grid u (inject_Z k * pow2 u) == inject_Z k * pow2 u)%Q.
Proof.
  unfold on_grid.
  assert (E : (inject_Z k * pow2 u * pow2 (- u) == inject_Z k)%Q).
  { rewrite <- Qmult_assoc, (Qmult_comm (pow2 u)), pow2_cancel. ring. }
  now rewrite E, round_half_even_int.
Qed.

Lemma on_grid_near (u : Z) (x : Q) :
  (on_grid u x - pow2 u * (1 # 2) <= x
   /\ x <= on_grid u x + pow2 u * (1 # 2))%Q.
Proof.
  unfold on_grid. pose proof (pow2_positive u) as Hp.
  pose proof (pow2_cancel u) as Hc.
  destruct (round_half_even_near (x * pow2 (- u))) as [H1 H2].
  set (m := inject_Z (round_half_even (x * pow2 (- u)))) in *.
  set (P := pow2 u) in *. set (P' := pow2 (- u)) in *.
  assert (E : (x * P' * P == x)%Q) by (rewrite <- Qmult_assoc, Hc; ring).
  assert (L1 : ((m - (1 # 2)) * P <= x * P' * P)%Q)
    by (apply Qmult_le_compat_r; lra).
  assert (L2 : (x * P' * P <= (m + (1 # 2)) * P)%Q)
    by (apply Qmult_le_compat_r; lra).
  split; lra.
Qed.

Lemma pow2_on_grid (e u : Z) :
  (u <= e)%Z -> (pow2 e == inject_Z (2 ^ (e - u)) * pow2 u)%Q.
Proof.
  intros H. rewrite <- pow2_int by lia. rewrite <- pow2_add.
  now replace (e - u + u)%Z with e by lia.
Qed.

Lemma int_on_grid (n u : Z) :
  (u <= 0)%Z -> (inject_Z n == inject_Z (n * 2 ^ (- u)) * pow2 u)%Q.
Proof.
  intros H. rewrite inject_Z_mult, <- pow2_int by lia.
  rewrite <- Qmult_assoc, pow2_cancel. ring.
Qed.

Lemma nearest_double_grid (x : Q) : nearest_double x = on_grid (ulp_exponent x) x.
Proof. reflexivity. Qed.

(** Rounding to the nearest double keeps the order. *)
Lemma nearest_double_mono (x y : Q) :
  (0 < x)%Q -> (x <= y)%Q -> (nearest_double x <= nearest_double y)%Q.
Proof.
  intros Hx Hxy. assert (Hy : (0 < y)%Q) by lra.
  rewrite !nearest_double_grid.
  destruct (Z.eq_dec (ulp_exponent x) (ulp_exponent y)) as [E|Hne].
  - rewrite E. now apply on_grid_mono.
  - pose proof (ulp_exponent_min x) as Mx. pose proof (ulp_exponent_min y) as My.
    pose proof (ulp_exponent_upper x Hx) as Ux.
    pose proof (ulp_exponent_upper y Hy) as Uy.
    assert (Hlt : (ulp_exponent x < ulp_exponent y)%Z).
    { destruct (Z.lt_trichotomy (ulp_exponent x) (ulp_exponent y))
        as [L|[L|L]]; [exact L|contradiction|].
      exfalso. pose proof (ulp_exponent_normal x Hx ltac:(lia)) as Nx.
      assert (pow2 (ulp_exponent y + 53) <= pow2 (ulp_exponent x + 52))%Q
        by (apply pow2_le; lia).
      lra. }
    pose proof (ulp_exponent_normal y Hy ltac:(lia)) as Ny.
    set (B := pow2 (ulp_exponent y + 52)) in *.
    assert (HxB : (x <= B)%Q).
    { assert (pow2 (ulp_exponent x + 53) <= B)%Q by (apply pow2_le; lia). lra. }
    apply Qle_trans with B.
    + pose proof (pow2_on_grid (ulp_exponent y + 52) (ulp_exponent x)
                    ltac:(lia)) as G.
      fold B in G. rewrite G in HxB |- *.
      rewrite <- (on_grid_fixed (ulp_exponent x)). now apply on_grid_mono.
    + pose proof (pow2_on_grid (ulp_exponent y + 52) (ulp_exponent y)
                    ltac:(lia)) as G.
      fold B in G. rewrite G in Ny |- *.
      rewrite <- (on_grid_fixed (ulp_exponent y)). now apply on_grid_mono.
Qed.

Lemma on_grid_zero (u : Z) (x : Q) : (x == 0)%Q -> (on_grid u x == 0)%Q.
Proof.
  intros E. unfold on_grid.
  assert (H : (x * pow2 (- u) == inject_Z 0)%Q) by (rewrite E; ring).
  rewrite H, round_half_even_int. ring.
Qed.

Lemma on_grid_nonneg (u : Z) (x : Q) : (0 <= x)%Q -> (0 <= on_grid u x)%Q.
Proof.
  intros H. rewrite <- (on_grid_zero u 0) by reflexivity.
  now apply on_grid_mono.
Qed.

Lemma nearest_double_mono0 (x y : Q) :
  (0 <= x)%Q -> (x <= y)%Q -> (nearest_double x <= nearest_double y)%Q.
Proof.
  intros Hx Hxy. destruct (Qlt_le_dec 0 x) as [Hpos|Hle].
  - now apply nearest_double_mono.
  - rewrite (nearest_double_grid x), on_grid_zero by lra.
    apply on_grid_nonneg. lra.
Qed.

Lemma ulp_exponent_small (x : Q) :
  (0 < x)%Q -> (x < pow2 53)%Q -> (ulp_exponent x <= 0)%Z.
Proof.
  intros Hx Hlt.
  destruct (Z_le_gt_dec (ulp_exponent x) (-1074)) as [H|H]; [lia|].
  pose proof (ulp_exponent_normal x Hx ltac:(lia)) as N.
  assert (L : (pow2 (ulp_exponent x + 52) < pow2 53)%Q) by lra.
  apply pow2_lt_inv in L. lia.
Qed.

(** Below [2^53] every integer is a double: rounding does not cross one. *)
Lemma nearest_double_le_int (x : Q) (n : Z) :
  (0 <= x)%Q -> (x <= inject_Z n)%Q -> (inject_Z n < pow2 53)%Q ->
  (nearest_double x <= inject_Z n)%Q.
Proof.
  intros Hx Hn Hb. rewrite nearest_double_grid.
  destruct (Qlt_le_dec 0 x) as [Hpos|Hle].
  - pose proof (ulp_exponent_small x Hpos ltac:(lra)) as Hu.
    rewrite (int_on_grid n (ulp_exponent x) Hu) in Hn |- *.
    rewrite <- (on_grid_fixed (ulp_exponent x)). now apply on_grid_mono.
  - rewrite on_grid_zero by lra. lra.
Qed.

Lemma nearest_double_ge_int (x : Q) (n : Z) :
  (inject_Z n <= x)%Q -> (0 < x)%Q -> (x < pow2 53)%Q ->
  (inject_Z n <= nearest_double x)%Q.
Proof.
  intros Hn Hpos Hb. rewrite nearest_double_grid.
  pose proof (ulp_exponent_small x Hpos Hb) as Hu.
  rewrite (int_on_grid n (ulp_exponent x) Hu) in Hn |- *.
  rewrite <- (on_grid_fixed (ulp_exponent x)). now apply on_grid_mono.
Qed.

Lemma py_int_floor (v : Q) : (0 <= v)%Q -> py_int v = Qfloor v.
Proof.
  destruct v as [n d]. unfold Qle, py_int, Qfloor. cbn. intros H.
  apply Z.quot_div_nonneg; lia.
Qed.

Lemma Qfloor_between (n : Z) (v : Q) :
  (inject_Z n <= v)%Q -> (v < inject_Z (n + 1))%Q -> Qfloor v = n.
Proof.
  intros H1 H2. pose proof (Qfloor_le v) as F1. pose proof (Qlt_floor v) as F2.
  assert (L1 : (inject_Z (Qfloor v) < inject_Z (n + 1))%Q) by lra.
  assert (L2 : (inject_Z n < inject_Z (Qfloor v + 1))%Q) by lra.
  rewrite <- Zlt_Qlt in L1, L2. lia.
Qed.

Lemma no_overflow (v : Q) :
  (0 <= v)%Q -> (v < pow2 1024)%Q -> Qle_bool (pow2 1024) (Qabs v) = false.
Proof.
  intros H0 H1. destruct (Qle_bool (pow2 1024) (Qabs v)) eqn:B; [|reflexivity].
  apply Qle_bool_iff in B. rewrite (Qabs_pos v H0) in B. lra.
Qed.

Lemma quotient_as_fraction (a b : Z) :
  (0 < b)%Z -> (inject_Z a / inject_Z b * inject_Z b == inject_Z a)%Q.
Proof.
  intros H. field. intros E. unfold Qeq in E. cbn in E. lia.
Qed.

(** A quotient between 0 and 100 is rounded to a double between 0 and
    100, whatever the size of the operands. *)
Lemma true_divide_percent (a b : Z) :
  (0 < b)%Z -> (0 <= a <= 100 * b)%Z ->
  true_divide a b = Some (nearest_double (inject_Z a / inject_Z b))
  /\ (0 <= nearest_double (inject_Z a / inject_Z b) <= 100)%Q.
Proof.
  intros Hb Ha. pose proof (quotient_as_fraction a b Hb) as E.
  set (x := (inject_Z a / inject_Z b)%Q) in *.
  assert (HB : (0 < inject_Z b)%Q) by (change 0%Q with (inject_Z 0); now rewrite <- Zlt_Qlt).
  assert (HA : (0 <= inject_Z a <= 100 * inject_Z b)%Q).
  { change 100%Q with (inject_Z 100). rewrite <- inject_Z_mult.
    change 0%Q with (inject_Z 0). rewrite <- !Zle_Qle. lia. }
  assert (Hx : (0 <= x <= 100)%Q) by (split; nra).
  assert (Hv : (0 <= nearest_double x <= 100)%Q).
  { split.
    - rewrite nearest_double_grid. now apply on_grid_nonneg.
    - apply (nearest_double_le_int x 100); [tauto|tauto|reflexivity]. }
  split; [|exact Hv]. unfold true_divide. fold x.
  rewrite no_overflow; [reflexivity|tauto|].
  assert ((100 < pow2 1024)%Q) by reflexivity. lra.
Qed.

Lemma quotient_mono (a1 b1 a2 b2 : Z) :
  (0 <= a1 <= a2)%Z -> (0 < b2 <= b1)%Z ->
  (0 <= inject_Z a1 / inject_Z b1
   /\ inject_Z a1 / inject_Z b1 <= inject_Z a2 / inject_Z b2)%Q.
Proof.
  intros Ha Hb.
  pose proof (quotient_as_fraction a1 b1 ltac:(lia)) as E1.
  pose proof (quotient_as_fraction a2 b2 ltac:(lia)) as E2.
  set (x1 := (inject_Z a1 / inject_Z b1)%Q) in *.
  set (x2 := (inject_Z a2 / inject_Z b2)%Q) in *.
  assert (HA : (0 <= inject_Z a1 <= inject_Z a2)%Q).
  { change 0%Q with (inject_Z 0). rewrite <- !Zle_Qle. lia. }
  assert (HB : (0 < inject_Z b2 <= inject_Z b1)%Q).
  { change 0%Q with (inject_Z 0). rewrite <- Zlt_Qlt, <- Zle_Qle. lia. }
  set (A1 := inject_Z a1) in *. set (A2 := inject_Z a2) in *.
  set (B1 := inject_Z b1) in *. set (B2 := inject_Z b2) in *.
  assert (H1 : (0 <= x1)%Q) by nra.
  assert (H2 : (0 <= x2)%Q) by nra.
  split; [exact H1|]. nra.
Qed.

(** Below [2^53] the rounded quotient truncates to the floor of the exact
    one. *)
Lemma true_divide_exact (a b : Z) :
  (0 <= a < 2 ^ 53)%Z -> (0 < b < 2 ^ 53)%Z ->
  option_map py_int (true_divide a b) = Some (a / b)%Z.
Proof.
  intros Ha Hb. pose proof (quotient_as_fraction a b ltac:(lia)) as E.
  set (n := (a / b)%Z).
  assert (Hn : (b * n <= a /\ a + 1 <= b * n + b)%Z).
  { pose proof (Z.mul_div_le a b ltac:(lia)).
    pose proof (Z.mul_succ_div_gt a b ltac:(lia)). subst n. lia. }
  assert (Hn0 : (0 <= n < 2 ^ 53)%Z).
  { subst n. split; [apply Z.div_pos; lia|].
    apply Z.div_lt_upper_bound; nia. }
  set (x := (inject_Z a / inject_Z b)%Q) in *.
  assert (HA : (0 <= inject_Z a /\ inject_Z a + 1 <= 9007199254740992)%Q).
  { change 0%Q with (inject_Z 0). change 1%Q with (inject_Z 1).
    change 9007199254740992%Q with (inject_Z (2 ^ 53)).
    rewrite <- inject_Z_plus, <- !Zle_Qle. lia. }
  assert (HB : (1 <= inject_Z b /\ inject_Z b + 1 <= 9007199254740992)%Q).
  { change 1%Q with (inject_Z 1).
    change 9007199254740992%Q with (inject_Z (2 ^ 53)).
    rewrite <- inject_Z_plus, <- !Zle_Qle. lia. }
  assert (HN : (inject_Z b * inject_Z n <= inject_Z a
                /\ inject_Z a + 1 <= inject_Z b * inject_Z n + inject_Z b
                /\ 0 <= inject_Z n
                /\ inject_Z (n + 1) == inject_Z n + 1
                /\ inject_Z n + 1 <= 9007199254740992)%Q).
  { rewrite <- !inject_Z_mult. change 1%Q with (inject_Z 1).
    change 0%Q with (inject_Z 0).
    change 9007199254740992%Q with (inject_Z (2 ^ 53)).
    rewrite <- !inject_Z_plus, <- !Zle_Qle. repeat split; lia. }
  set (A := inject_Z a) in *. set (B := inject_Z b) in *.
  set (N := inject_Z n) in *.
  destruct HN as (N1 & N2 & N3 & N4 & N5).
  assert (P53 : (pow2 53 == 9007199254740992)%Q) by reflexivity.
  assert (P1024 : (9007199254740992 < pow2 1024)%Q) by reflexivity.
  assert (Hx : (0 <= x /\ N <= x /\ x <= A)%Q) by (repeat split; nra).
  assert (Hv : (N <= nearest_double x /\ nearest_double x < N + 1)%Q).
  { destruct (Qlt_le_dec 0 x) as [Hpos|Hzero].
    - split.
      + apply nearest_double_ge_int; [tauto|exact Hpos|lra].
      + rewrite nearest_double_grid.
        destruct (on_grid_near (ulp_exponent x) x) as [G _].
        set (v := on_grid (ulp_exponent x) x) in *.
        pose proof (pow2_positive (ulp_exponent x)) as Pp.
        assert (PB : (pow2 (ulp_exponent x) * B < 2)%Q).
        { destruct (Z_le_gt_dec (ulp_exponent x) (-53)) as [Hu|Hu].
          - pose proof (pow2_le _ _ Hu) as L.
            assert (M53 : (pow2 (-53) * 9007199254740992 == 1)%Q) by reflexivity.
            set (P := pow2 (ulp_exponent x)) in *. set (Q53 := pow2 (-53)) in *.
            nra.
          - pose proof (ulp_exponent_normal x Hpos ltac:(lia)) as Nx.
            rewrite pow2_add in Nx.
            assert (P52 : (pow2 52 == 4503599627370496)%Q) by reflexivity.
            rewrite P52 in Nx.
            set (P := pow2 (ulp_exponent x)) in *. nra. }
        set (P := pow2 (ulp_exponent x)) in *. nra.
    - rewrite nearest_double_grid, on_grid_zero by lra.
      assert (N == 0)%Q by lra. lra. }
  destruct Hv as [V1 V2]. unfold true_divide.
  change (inject_Z a / inject_Z b)%Q with x.
  rewrite no_overflow by lra. cbn [option_map]. f_equal.
  rewrite py_int_floor by lra.
  apply Qfloor_between; [exact V1|]. now rewrite N4.
Qed.

(** ** The hook's percent *)



Lemma hook_pct_in_range (d : progress_dict) :
  in_range d -> exists pct, hook_pct d = Some pct /\ (0 <= pct <= 100)%Z.
Proof.
  unfold in_range, hook_pct. intros [H|[Hg Ht]].
  - rewrite H. exists 0%Z. split; [reflexivity|lia].
  - destruct (Z.eqb_spec (hook_total d) 0) as [|Hne].
    + exists 0%Z. split; [reflexivity|lia].
    + destruct (true_divide_percent (hook_got d * 100) (hook_total d))
        as (E & V0 & V1); [lia|lia|].
      rewrite E. eexists. split; [reflexivity|].
      rewrite py_int_floor by exact V0.
      apply Qfloor_resp_le in V0, V1.
      change 0%Q with (inject_Z 0) in V0. change 100%Q with (inject_Z 100) in V1.
      rewrite Qfloor_Z in V0, V1. lia.
Qed.

Lemma hook_pct_steady (d1 d2 : progress_dict) :
  in_range d1 -> in_range d2 -> steady d1 d2 ->
  (pct_or_zero d1 <= pct_or_zero d2)%Z.
Proof.
  intros R1 R2 S. unfold pct_or_zero.
  destruct (hook_pct_in_range d2 R2) as (p2 & E2 & H2). rewrite E2.
  destruct S as [H|(Hg & Ht2 & Ht1)].
  - unfold hook_pct. rewrite H. cbn. lia.
  - revert E2. unfold hook_pct.
    destruct (Z.eqb_spec (hook_total d1) 0), (Z.eqb_spec (hook_total d2) 0);
      try lia.
    destruct R1 as [|R1]; [lia|]. destruct R2 as [|R2]; [lia|].
    destruct (true_divide_percent (hook_got d1 * 100) (hook_total d1))
      as (E1 & V1 & _); [lia|lia|].
    destruct (true_divide_percent (hook_got d2 * 100) (hook_total d2))
      as (E2 & V2 & _); [lia|lia|].
    rewrite E1, E2. cbn [option_map]. intros [= <-].
    destruct (quotient_mono (hook_got d1 * 100) (hook_total d1)
                (hook_got d2 * 100) (hook_total d2)) as [X0 X]; [lia|lia|].
    rewrite !py_int_floor by assumption.
    apply Qfloor_resp_le. now apply nearest_double_mono0.
Qed.

Lemma hook_percents (i : nat) (d : progress_dict) :
  downloading_percents (hook i d)
  = if is_downloading d then percent_shown d else [].
Proof.
  unfold hook, is_downloading, percent_shown.
  destruct (d_status d) as [st|]; [|reflexivity].
  destruct (st =? "downloading")%string; [now destruct (hook_pct d)|].
  now destruct (st =? "finished")%string.
Qed.

Lemma downloading_percents_app (l1 l2 : list signal) :
  downloading_percents (l1 ++ l2)
  = downloading_percents l1 ++ downloading_percents l2.
Proof. apply flat_map_app. Qed.

Lemma download_percents (i : nat) (s : session) :
  downloading_percents (download_events i s)
  = flat_map percent_shown (filter is_downloading (callbacks s)).
Proof.
  unfold download_events.
  induction (callbacks s) as [|d ds IH]; [reflexivity|].
  cbn [flat_map filter]. rewrite downloading_percents_app, hook_percents, IH.
  now destruct (is_downloading d).
Qed.

Lemma probe_percents (i : nat) (r : probe_result) :
  downloading_percents (probe_events i r) = [].
Proof.
  destruct r as [e|[[[t|]]|]]; try reflexivity.
  cbn. now destruct (t =? "")%string.
Qed.

Lemma run_item_percents (i : nat) (s : session) :
  downloading_percents (run_item i s)
  = flat_map percent_shown (filter is_downloading (callbacks s)).
Proof.
  rewrite run_item_shape.
  peel_starting.
  rewrite !downloading_percents_app, probe_percents, download_percents.
  unfold closing. destruct (download s) as [[m|m]|]; cbn; now rewrite app_nil_r.
Qed.

Lemma percent_shown_in_range (ds : list progress_dict) :
  Forall in_range ds -> flat_map percent_shown ds = map pct_or_zero ds.
Proof.
  induction 1 as [|d ds Hd _ IH]; [reflexivity|].
  cbn [flat_map map]. rewrite IH. unfold percent_shown, pct_or_zero.
  destruct (hook_pct_in_range d Hd) as (pct & -> & _). reflexivity.
Qed.

Lemma steady_percents (ds : list progress_dict) :
  Forall in_range ds -> Sorted steady ds ->
  Sorted Z.le (map pct_or_zero ds).
Proof.
  induction ds as [|d ds IH]; intros HR HS; [constructor|].
  apply Forall_cons_iff in HR as [Rd HR].
  apply Sorted_inv in HS as [HS Hd]. cbn [map]. constructor.
  - now apply IH.
  - destruct ds as [|d' ds]; constructor.
    apply HdRel_inv in Hd. apply Forall_cons_iff in HR as [Rd' _].
    now apply hook_pct_steady.
Qed.

(** * The properties of the specification *)

(** ** Pure helpers *)

(** C6, as the code has it.  A cap that is neither absent nor zero appears
    in the selector as a height filter, in decimal, on both the video and
    the fallback stream; an absent cap and a cap of zero both give the
    uncapped selector, which has no height filter. *)
Theorem build_format_cap :
  (forall r : Z, r <> 0%Z ->
     build_format (Some r)
     = ("bv*[height<=" ++ decimal r ++ "]+ba/b[height<=" ++ decimal r ++ "]")%string
     /\ contains ("[height<=" ++ decimal r ++ "]")%string (build_format (Some r))
        = true
     /\ contains (decimal r) (build_format (Some r)) = true) /\
  (forall max_res : option Z, max_res = None \/ max_res = Some 0%Z ->
     build_format max_res = "bv*+ba/b"
     /\ contains "height" (build_format max_res) = false).
Proof.
  split.
  - intros r Hr. rewrite (build_format_capped r Hr). split; [reflexivity|]. split.
    + pose proof (contains_append "bv*" ("[height<=" ++ decimal r ++ "]")
                    ("+ba/b[height<=" ++ decimal r ++ "]")) as H.
      rewrite !append_assoc in H. exact H.
    + apply (contains_append "bv*[height<=" (decimal r)).
  - intros max_res H. rewrite (build_format_uncapped max_res H).
    split; reflexivity.
Qed.

Lemma build_format_cap_witness :
  build_format (Some 1080%Z) = "bv*[height<=1080]+ba/b[height<=1080]"
  /\ build_format None = "bv*+ba/b".
Proof.
  split.
  - apply (proj1 build_format_cap 1080%Z). lia.
  - apply (proj2 build_format_cap None). left. reflexivity.
Defined.

(** C6 as stated fails at the cap 0: it is not none, yet the selector
    carries no height filter and does not contain its decimal value. *)
Lemma build_format_zero_cap :
  build_format (Some 0%Z) = "bv*+ba/b"
  /\ contains (decimal 0) (build_format (Some 0%Z)) = false
  /\ contains "height" (build_format (Some 0%Z)) = false.
Proof. repeat split. Qed.

(** C7.  The four values the specification lists, and the rule for every
    positive size: the size is divided by 1024 [k] times, where each of
    the [k] divisions was made on a magnitude of at least 1024 and the
    result is below 1024 unless the terabyte unit ([k] = 4) is reached;
    the text is that quotient rounded to tenths, with exactly one decimal
    digit, followed by the [k]-th unit. *)
Theorem human_bytes_rule :
  human_bytes (Some 0%Q) = "0 B" /\
  human_bytes None = "0 B" /\
  human_bytes (Some 1536%Q) = "1.5 KB" /\
  human_bytes (Some (1024 * 1024)%Q) = "1.0 MB" /\
  forall q : Q, (0 < q)%Q ->
    exists (k : nat) (t : Z),
      k <= 4 /\
      human_bytes (Some q)
      = ((decimal (t / 10) ++ "." ++ decimal (t mod 10))
           ++ " " ++ nth k units "")%string /\
      (0 <= t mod 10 < 10)%Z /\
      (inject_Z t - (1 # 2) <= divided k q * 10
       /\ divided k q * 10 <= inject_Z t + (1 # 2))%Q /\
      (forall m, m < k -> (1024 <= divided m q)%Q) /\
      (k = 4 \/ (divided k q < 1024)%Q).
Proof.
  repeat split; try reflexivity.
  intros q Hq.
  destruct (human_bytes_positive q Hq) as (k & Hk & E & Hbelow & Hstop).
  destruct (format_1f_one_decimal (divided k q)) as (t & Et & Hd & Ht).
  { apply Qlt_le_weak, divided_positive, Hq. }
  exists k, t. rewrite E, Et. tauto.
Qed.

Lemma human_bytes_rule_witness :
  exists (k : nat) (t : Z),
    k <= 4 /\
    human_bytes (Some 1536%Q)
    = ((decimal (t / 10) ++ "." ++ decimal (t mod 10))
         ++ " " ++ nth k units "")%string /\
    (0 <= t mod 10 < 10)%Z /\
    (inject_Z t - (1 # 2) <= divided k 1536 * 10
     /\ divided k 1536 * 10 <= inject_Z t + (1 # 2))%Q /\
    (forall m, m < k -> (1024 <= divided m 1536)%Q) /\
    (k = 4 \/ (divided k 1536 < 1024)%Q).
Proof.
  apply (proj2 (proj2 (proj2 (proj2 human_bytes_rule))) 1536%Q).
  reflexivity.
Defined.

(** C10.  [human_bytes] is a total function, and for an absent size and
    for every size that is zero or negative it answers ["0 B"]. *)
Theorem human_bytes_zero_for_nonpositive (n : option Q) :
  (n = None \/ exists q, n = Some q /\ (q <= 0)%Q) ->
  human_bytes n = "0 B".
Proof.
  intros [->|(q & -> & Hq)]; [reflexivity|]. now apply human_bytes_nonpositive.
Qed.

Lemma human_bytes_zero_for_nonpositive_witness :
  human_bytes (Some (-5 # 2)%Q) = "0 B".
Proof.
  apply human_bytes_zero_for_nonpositive. right.
  exists (-5 # 2)%Q. split; [reflexivity|]. unfold Qle. simpl. lia.
Defined.

(** ** The progress hook *)




(** Outside byte counts [int] and the floor part ways: a negative quotient
    is truncated toward zero. *)
Remark hook_pct_truncates :
  hook_pct (ProgressDict (Some "downloading") (Some 3%Z) None (Some (-1)%Z) None)
  = Some (-33)%Z.
Proof. vm_compute. reflexivity. Qed.

(** C4, as the code has it.  The hook neither clamps the percent nor
    remembers the last one, so the guarantee rests on the callbacks: when
    in every downloading callback of an item the downloaded count lies
    between 0 and the total in use, and from each such callback to the
    next the downloaded count does not shrink while the total, once
    known, stays known and does not grow, the percents of the item's
    Downloading signals never decrease and never exceed 100. *)
Theorem downloading_percent_steady (i : nat) (s : session) :
  Forall in_range (filter is_downloading (callbacks s)) ->
  Sorted steady (filter is_downloading (callbacks s)) ->
  StronglySorted Z.le (downloading_percents (run_item i s))
  /\ Forall (fun pct => (0 <= pct <= 100)%Z)
       (downloading_percents (run_item i s)).
Proof.
  intros HR HS. rewrite run_item_percents, (percent_shown_in_range _ HR).
  split.
  - apply Sorted_StronglySorted; [exact Z.le_trans|].
    now apply steady_percents.
  - apply Forall_map. revert HR. apply Forall_impl. intros d Hd.
    destruct (hook_pct_in_range d Hd) as (pct & E & Hp).
    unfold pct_or_zero. now rewrite E.
Qed.

Lemma downloading_percent_steady_witness :
  StronglySorted Z.le (downloading_percents (run_item 0 well_behaved))
  /\ Forall (fun pct => (0 <= pct <= 100)%Z)
       (downloading_percents (run_item 0 well_behaved)).
Proof.
  apply (downloading_percent_steady 0 well_behaved).
  - simpl.
    repeat (apply Forall_cons; [right; vm_compute; split; discriminate|]).
    apply Forall_nil.
  - simpl.
    repeat (apply Sorted_cons;
            [|first [apply HdRel_nil
                    |apply HdRel_cons; right; vm_compute;
                     repeat split; discriminate]]).
    apply Sorted_nil.
Defined.

(** C4 as stated fails: an estimate that doubles between two callbacks
    takes the percent from 50 down to 30, and a downloaded count above the
    total gives 200. *)
Lemma downloading_percent_unclamped :
  downloading_percents (run_item 0 estimate_grows) = [50; 30]%Z
  /\ ~ StronglySorted Z.le (downloading_percents (run_item 0 estimate_grows))
  /\ downloading_percents (run_item 0 overshoots) = [200]%Z
  /\ ~ Forall (fun pct => (pct <= 100)%Z)
         (downloading_percents (run_item 0 overshoots)).
Proof.
  assert (E1 : downloading_percents (run_item 0 estimate_grows) = [50; 30]%Z)
    by (vm_compute; reflexivity).
  assert (E2 : downloading_percents (run_item 0 overshoots) = [200]%Z)
    by (vm_compute; reflexivity).
  split; [exact E1|]. split; [|split; [exact E2|]].
  - rewrite E1. intros H.
    apply StronglySorted_inv in H as [_ H].
    apply Forall_inv in H. lia.
  - rewrite E2. intros H.
    apply Forall_inv in H. lia.
Qed.

(** ** One item *)

(** C3.  For the item at position [i] the worker emits Starting with
    percent 0 first and one terminal signal last, with no terminal signal
    in between: Done with percent 100 when the download returns, an Error
    whose message is [str(e)] after ["Download failed: "] when it raises
    the library's download error, and after
    ["An unexpected error occurred: "] for any other exception.  Whatever
    the outcome, the worker is back at the head of the loop for the next
    item once these signals are out. *)
Theorem item_protocol (ydl : ydl_opts -> nat -> string -> session)
    (w : DLWorker) (i : nat) (r : row) (em : list signal) :
  nth_error (rows w) i = Some r -> _stop w = false ->
  let s := session_of ydl w i r in
  let mid := probe_events i (extract_info s) ++ download_events i s in
  run_item i s
  = sig_update i (Payload (Some "Starting") (Some 0%Z) None None None)
      :: mid ++ [closing i s]
  /\ Forall (fun sg => is_terminal_signal sg = false) mid
  /\ closing i s
     = match download s with
       | None =>
           sig_update i (Payload (Some "Done") (Some 100%Z) None None None)
       | Some (DownloadError msg) =>
           sig_update i
             (Payload (Some "Error") None None
                (Some ("Download failed: " ++ msg)%string) None)
       | Some (OtherException msg) =>
           sig_update i
             (Payload (Some "Error") None None
                (Some ("An unexpected error occurred: " ++ msg)%string) None)
       end
  /\ exec ydl (repeat Work (length (run_item i s) + 2)) (Config w (Check i) em)
     = Config w (Check (S i)) (em ++ run_item i s).
Proof.
  intros E Hs s mid. split; [|split; [|split]].
  - rewrite run_item_shape. subst mid. now rewrite <- app_assoc.
  - apply middle_not_terminal.
  - unfold closing. now destruct (download s) as [[m|m]|].
  - now apply exec_item.
Qed.

Lemma item_protocol_witness :
  exec sample_ydl (repeat Work 4)
    (Config (init sample_rows []) (Check 1) [])
  = Config (init sample_rows []) (Check 2)
      [sig_update 1 (Payload (Some "Starting") (Some 0%Z) None None None);
       sig_update 1
         (Payload (Some "Error") None None
            (Some "Download failed: geo-blocked") None)].
Proof.
  apply (item_protocol sample_ydl (init sample_rows []) 1 (Row "b") []);
    reflexivity.
Defined.

(** C8.  A probe that raises leaves no trace: the item's signals are
    Starting, the signals of the download and the closing signal, with no
    title among them and an Error only if the download itself fails.  A
    probe that returns a non-empty title puts exactly one title signal
    right after Starting, ahead of every signal of the download.  A probe
    that returns nothing, or no title, is as silent as one that raises. *)
Theorem title_probe_best_effort (i : nat) (s : session) :
  (forall e, extract_info s = Probe_raises e ->
     run_item i s = sig_update i starting :: download_events i s ++ [closing i s]
     /\ count is_title (run_item i s) = 0
     /\ count is_error (run_item i s)
        = match download s with Some _ => 1 | None => 0 end) /\
  (forall t, extract_info s = Probe_returns (Some (InfoDict (Some t))) ->
     t <> "" ->
     run_item i s
     = sig_update i starting
         :: sig_update i (Payload None None None None (Some t))
         :: download_events i s ++ [closing i s]
     /\ count is_title (run_item i s) = 1) /\
  (forall info, extract_info s = Probe_returns info ->
     match info with
     | Some (InfoDict (Some t)) => t = ""
     | _ => True
     end ->
     run_item i s = sig_update i starting :: download_events i s ++ [closing i s]
     /\ count is_title (run_item i s) = 0).
Proof.
  assert (Hd : count is_title (download_events i s) = 0).
  { apply count_none. generalize (download_payloads i s). apply Forall_impl.
    now intros sg (p & -> & _ & H & _). }
  assert (He : count is_error (download_events i s) = 0).
  { apply count_none. generalize (download_payloads i s). apply Forall_impl.
    now intros sg (p & -> & _ & _ & H). }
  assert (Hc : count is_title [closing i s] = 0).
  { destruct (closing_payload i s) as (p & -> & _ & H). unfold count. cbn.
    now rewrite H. }
  assert (Hsilent : probe_events i (extract_info s) = [] ->
    run_item i s = sig_update i starting :: download_events i s ++ [closing i s]
    /\ count is_title (run_item i s) = 0).
  { intros E. rewrite run_item_shape, E. split; [reflexivity|].
    peel_starting. rewrite !count_app, Hd, Hc. reflexivity. }
  split; [|split].
  - intros e E. destruct Hsilent as [Hr Ht]; [now rewrite E|].
    split; [exact Hr|]. split; [exact Ht|]. rewrite Hr. peel_starting.
    rewrite !count_app, He. unfold closing.
    now destruct (download s) as [[m|m]|].
  - intros t E Ht. rewrite run_item_shape, E. cbn [probe_events info_title].
    destruct (String.eqb_spec t "") as [|_]; [contradiction|].
    split; [reflexivity|]. peel_starting.
    rewrite !count_app, Hd, Hc. reflexivity.
  - intros info E H. apply Hsilent. rewrite E.
    destruct info as [[[t|]]|]; try reflexivity.
    cbn [probe_events info_title]. now rewrite H.
Qed.

Lemma title_probe_best_effort_witness :
  count is_title (run_item 1 (sample_ydl [] 1 "b")) = 0
  /\ count is_title (run_item 0 (sample_ydl [] 0 "a")) = 1.
Proof.
  split.
  - apply (proj1 (title_probe_best_effort 1 (sample_ydl [] 1 "b"))
             (OtherException "timed out")).
    reflexivity.
  - apply (proj1 (proj2 (title_probe_best_effort 0 (sample_ydl [] 0 "a")))
             "Clip").
    + reflexivity.
    + discriminate.
Defined.

(** ** The run *)

(** C1.  A run of [N] queued rows in which nobody calls [stop] returns
    after [todo] worker steps, with the flag still clear.  Its signals are
    those of the rows, one row after the other in queue order, then
    [sig_done]: every row has exactly one terminal signal (so [N] in all),
    no signal of a row comes after a signal of a later row, and [sig_done]
    is emitted once, last. *)
Theorem run_without_stop (ydl : ydl_opts -> nat -> string -> session)
    (rs : list row) (o : ydl_opts) (n : nat) :
  todo ydl (start (init rs o)) <= n ->
  let c := exec ydl (repeat Work n) (start (init rs o)) in
  pc c = Halted /\
  _stop (self c) = false /\
  emitted c = items_from ydl (init rs o) 0 rs ++ [sig_done] /\
  (forall i, i < length rs -> count (terminal_of i) (emitted c) = 1) /\
  count is_terminal_signal (emitted c) = length rs /\
  StronglySorted in_order (emitted c) /\
  count is_done (emitted c) = 1 /\
  last (emitted c) sig_done = sig_done.
Proof.
  intros Hn c.
  assert (Hpc : pc c = Halted).
  { apply exec_halts. now rewrite count_work_repeat. }
  assert (Hself : self c = init rs o) by apply exec_work_self.
  assert (Hem : emitted c = upto ydl (init rs o) (length rs) ++ [sig_done]).
  { rewrite <- (final_halted ydl c Hpc). subst c.
    rewrite final_exec_work, upto_all. reflexivity. }
  destruct (upto_trace ydl (init rs o) (length rs) (le_n _))
    as (Hterm & _ & Htotal & Hdone & Hlast & Hsorted).
  rewrite <- Hem in *. rewrite Hself.
  repeat split; try assumption.
  rewrite Hem, upto_all. reflexivity.
Qed.

Lemma run_without_stop_witness :
  pc (exec sample_ydl (repeat Work 19) (start (init sample_rows [])))
  = Halted.
Proof.
  apply (run_without_stop sample_ydl sample_rows [] 19).
  vm_compute. lia.
Defined.

(** C2.  Let [stop] be called when [k] rows have passed the stop test,
    after any number [n] of worker steps: at the head of the loop or in
    the middle of row [k-1].  However the worker steps and further calls
    of [stop] are scheduled afterwards, once the worker has had the steps
    it needs the run has returned; rows [0..k-1] each have their terminal
    signal, rows from [k] on have no signal at all, and [sig_done] is
    emitted once, last.  The flag is read only at the head of the loop:
    inside a row a worker step does the same whether or not [stop] was
    called. *)
Theorem stop_before_item (ydl : ydl_opts -> nat -> string -> session)
    (rs : list row) (o : ydl_opts) (n : nat) (post : list action) (k : nat) :
  begun (exec ydl (repeat Work n) (start (init rs o))) = k ->
  todo ydl (request_stop (exec ydl (repeat Work n) (start (init rs o))))
    <= count is_work post ->
  let c := exec ydl (repeat Work n ++ StopReq :: post) (start (init rs o)) in
  pc c = Halted /\
  k <= length rs /\
  emitted c = upto ydl (init rs o) k ++ [sig_done] /\
  (forall i, i < k -> count (terminal_of i) (emitted c) = 1) /\
  (forall i, k <= i -> count (about i) (emitted c) = 0) /\
  count is_done (emitted c) = 1 /\
  last (emitted c) sig_done = sig_done /\
  (forall w i pending em,
     step ydl (request_stop (Config w (InItem i pending) em))
     = request_stop (step ydl (Config w (InItem i pending) em))).
Proof.
  intros Hk Hn c. subst c. rewrite exec_app, exec_cons. cbn [perform].
  set (c1 := exec ydl (repeat Work n) (start (init rs o))) in *.
  assert (Hself : self c1 = init rs o) by apply exec_work_self.
  assert (Hcons : consistent ydl c1)
    by apply consistent_work, consistent_start.
  assert (Hpc : pc (exec ydl post (request_stop c1)) = Halted)
    by now apply exec_halts.
  assert (Hle : k <= length rs).
  { pose proof (begun_bound ydl c1 Hcons) as H. now rewrite Hself, Hk in H. }
  assert (Hem : emitted (exec ydl post (request_stop c1))
                = upto ydl (init rs o) k ++ [sig_done]).
  { rewrite <- (final_halted ydl _ Hpc), final_exec_stopped by reflexivity.
    rewrite final_after_stop, Hself, Hk; [reflexivity|exact Hcons|].
    now rewrite Hself. }
  destruct (upto_trace ydl (init rs o) k Hle)
    as (Hterm & Hnone & _ & Hdone & Hlast & _).
  rewrite <- Hem in *.
  repeat split; try assumption.
  intros w i pending em. apply step_mid_item.
Qed.

Lemma stop_before_item_witness :
  emitted
    (exec sample_ydl (repeat Work 3 ++ StopReq :: repeat Work 9)
       (start (init sample_rows [])))
  = upto sample_ydl (init sample_rows []) 1 ++ [sig_done].
Proof.
  apply (stop_before_item sample_ydl sample_rows [] 3 (repeat Work 9) 1).
  - reflexivity.
  - vm_compute. lia.
Defined.

(** C9.  Calling [stop] again changes nothing, however often and at
    whatever point of a run; the call sets the flag and leaves the queue,
    the options, the place the worker is at, the signals it still has to
    emit and the signals it has emitted untouched; and once the flag is
    set it stays set for the rest of the run, whatever the worker does and
    whoever calls [stop] afterwards. *)
Theorem stop_idempotent_monotone :
  (forall w, stop (stop w) = stop w) /\
  (forall w n, Nat.iter (S n) stop w = stop w) /\
  (forall w, rows (stop w) = rows w /\ opts (stop w) = opts w
             /\ _stop (stop w) = true) /\
  (forall c, request_stop (request_stop c) = request_stop c
             /\ pc (request_stop c) = pc c
             /\ emitted (request_stop c) = emitted c) /\
  (forall ydl sched c,
     _stop (self (exec ydl sched (request_stop c))) = true) /\
  (forall ydl sched c,
     _stop (self c) = true -> _stop (self (exec ydl sched c)) = true).
Proof.
  split; [reflexivity|]. split.
  { intros w n. induction n as [|n IH]; [reflexivity|].
    rewrite Nat.iter_succ, IH. reflexivity. }
  split; [now intros w|]. split; [now intros c|]. split.
  - intros ydl sched c. now apply exec_keeps_stop.
  - intros ydl sched c. apply exec_keeps_stop.
Qed.

Lemma stop_idempotent_monotone_witness :
  _stop (self (exec sample_ydl (repeat Work 5 ++ [StopReq; Work; StopReq])
                 (request_stop (start (init sample_rows []))))) = true.
Proof.
  apply (proj2 (proj2 (proj2 (proj2 (proj2 stop_idempotent_monotone))))
           sample_ydl).
  reflexivity.
Defined.

(** * Further properties of the code *)

(** ** Helper lemmas *)

Lemma int_of_text_decimal (z : Z) : int_of_text (decimal z) = Some z.
Proof.
  unfold int_of_text, decimal. rewrite NilZero.isi.
  - cbn [option_map]. now rewrite DecimalZ.of_to.
  - destruct z as [|p|p]; cbn [Z.to_int]; try discriminate.
    intros E. injection E as E. now apply Unsigned.to_uint_nonnil in E.
  - destruct z as [|p|p]; cbn [Z.to_int]; try discriminate.
    intros E. injection E as E. now apply Unsigned.to_uint_nonnil in E.
Qed.

Lemma decimal_inj (a b : Z) : decimal a = decimal b -> a = b.
Proof.
  intros E. pose proof (int_of_text_decimal a) as Ha.
  rewrite E, int_of_text_decimal in Ha. congruence.
Qed.

Lemma length_append (a b : string) :
  String.length (a ++ b)%string = String.length a + String.length b.
Proof. induction a as [|c a IH]; cbn; [reflexivity|now rewrite IH]. Qed.

Lemma append_inj (a b x y : string) :
  String.length a = String.length b ->
  (a ++ x = b ++ y)%string -> a = b.
Proof.
  revert b; induction a as [|c a IH]; intros [|d b] Hl E; cbn in *;
    try discriminate; [reflexivity|].
  injection E as -> E. f_equal. apply IH; [lia|exact E].
Qed.

Lemma build_format_effective (max_res : option Z) :
  build_format (effective_cap max_res) = build_format max_res.
Proof.
  unfold effective_cap, build_format.
  destruct (cap_truthy max_res) eqn:E; [now rewrite E|reflexivity].
Qed.

Lemma threshold_positive (k : nat) : (0 < threshold k)%Q.
Proof.
  unfold threshold. change 0%Q with (inject_Z 0). rewrite <- Zlt_Qlt.
  apply Z.pow_pos_nonneg; lia.
Qed.

Lemma threshold_succ (k : nat) : (threshold (S k) == 1024 * threshold k)%Q.
Proof.
  unfold threshold. rewrite Nat2Z.inj_succ, Z.pow_succ_r by lia.
  rewrite inject_Z_mult. reflexivity.
Qed.

Lemma divided_threshold (k : nat) (q : Q) :
  (divided k q * threshold k == q)%Q.
Proof.
  induction k as [|k IH].
  - unfold divided, threshold. cbn [Nat.iter]. change (inject_Z (1024 ^ Z.of_nat 0)) with 1%Q.
    apply Qmult_1_r.
  - unfold divided in *. rewrite Nat.iter_succ, threshold_succ.
    rewrite <- IH at 2. field.
Qed.

(** A quotient is at least 1024 exactly when the size reaches the next
    threshold. *)
Lemma divided_reaches (k : nat) (q : Q) :
  (1024 <= divided k q)%Q <-> (threshold (S k) <= q)%Q.
Proof.
  pose proof (divided_threshold k q) as E.
  pose proof (threshold_positive k) as Hpos.
  rewrite threshold_succ. split; intros H.
  - eapply Qle_trans; [|apply Qle_lteq; right; exact E].
    apply Qmult_le_compat_r; [exact H|now apply Qlt_le_weak].
  - apply (Qmult_le_r _ _ (threshold k) Hpos).
    eapply Qle_trans; [exact H|]. apply Qle_lteq. right. now symmetry.
Qed.

Lemma threshold_mono (a b : nat) : a <= b -> (threshold a <= threshold b)%Q.
Proof.
  intros H. unfold threshold. rewrite <- Zle_Qle.
  apply Z.pow_le_mono_r; lia.
Qed.

(** ** Pure helpers *)

(** X1.  Reading back the decimal text of an integer gives the integer,
    [int(str(z)) == z], so different integers have different texts. *)
Theorem int_reads_decimal :
  (forall z : Z, int_of_text (decimal z) = Some z) /\
  (forall a b : Z, decimal a = decimal b -> a = b).
Proof. split; [exact int_of_text_decimal|exact decimal_inj]. Qed.

Lemma int_reads_decimal_witness : (2160 = 2160)%Z.
Proof. apply (proj2 int_reads_decimal 2160%Z 2160%Z). reflexivity. Defined.

(** X2.  The selector tells the cap: two caps give the same selector
    exactly when they are the same cap, a cap of zero counting as none. *)
Theorem build_format_tells_cap (a b : option Z) :
  build_format a = build_format b <-> effective_cap a = effective_cap b.
Proof.
  split.
  - unfold build_format, effective_cap.
    destruct (cap_truthy a) eqn:Ta, (cap_truthy b) eqn:Tb; intros E;
      try reflexivity; try (cbn in E; discriminate).
    destruct a as [x|], b as [y|]; try discriminate. cbn [cap_text] in E.
    cbn [append] in E. repeat (injection E as E).
    assert (L : String.length (decimal x) = String.length (decimal y)).
    { apply (f_equal String.length) in E. rewrite !length_append in E.
      cbn [String.length] in E. rewrite !length_append in E.
      cbn [String.length] in E. lia. }
    f_equal. apply decimal_inj. exact (append_inj _ _ _ _ L E).
  - intros E. rewrite <- (build_format_effective a), E.
    apply build_format_effective.
Qed.

Lemma build_format_tells_cap_witness :
  effective_cap (Some 0%Z) = effective_cap None.
Proof. apply (proj1 (build_format_tells_cap (Some 0%Z) None)). reflexivity. Defined.

(** X3.  The resolution the window reads.  The text of a non-zero cap is
    read back as that cap, and the selector then carries the very text as
    its height filter; every entry of the resolution box is either
    ["No cap"], read as no cap, or such a text; with no entry selected
    [int] raises. *)
Theorem resolution_box_reading :
  (forall z : Z, z <> 0%Z ->
     Main.max_res_val (decimal z) = Some (Some z)
     /\ build_format (Some z)
        = ("bv*[height<=" ++ decimal z ++ "]+ba/b[height<="
             ++ decimal z ++ "]")%string) /\
  Main.max_res_val "No cap" = Some None /\
  Forall (fun text => text = "No cap"
                      \/ exists z : Z, z <> 0%Z /\ text = decimal z)
    Main.resolution_items /\
  Main.max_res_val (Main.currentText Main.resolution_items (-1)) = None.
Proof.
  split; [|split; [reflexivity|split; [|reflexivity]]].
  - intros z Hz. split; [|now apply build_format_capped].
    unfold Main.max_res_val.
    destruct (String.eqb_spec (decimal z) "No cap") as [E|_].
    + pose proof (int_of_text_decimal z) as H. rewrite E in H. discriminate.
    + now rewrite int_of_text_decimal.
  - unfold Main.resolution_items.
    repeat (apply Forall_cons; [|]); try apply Forall_nil.
    + now left.
    + right. exists 2160%Z. split; [discriminate|reflexivity].
    + right. exists 1440%Z. split; [discriminate|reflexivity].
    + right. exists 1080%Z. split; [discriminate|reflexivity].
    + right. exists 720%Z. split; [discriminate|reflexivity].
Qed.

Lemma resolution_box_reading_witness :
  Main.max_res_val (decimal 1080) = Some (Some 1080%Z).
Proof. apply (proj1 resolution_box_reading 1080%Z). discriminate. Defined.

(** X4.  The unit follows the magnitude: a positive size from [1024^k] up
    to, but not including, [1024^(k+1)] is shown divided by 1024 [k]
    times with the [k]-th unit; below 1024 that is bytes, and from
    [1024^4] on it is terabytes however large the size. *)
Theorem human_bytes_unit (q : Q) (k : nat) :
  (0 < q)%Q -> k <= 4 ->
  (k = 0 \/ (threshold k <= q)%Q) ->
  (k = 4 \/ (q < threshold (S k))%Q) ->
  human_bytes (Some q)
  = (format_1f (divided k q) ++ " " ++ nth k units "")%string.
Proof.
  intros Hq Hk Hlo Hhi.
  destruct (human_bytes_positive q Hq) as (k' & Hk' & E & Hbelow & Hstop).
  assert (k' = k) as ->; [|exact E].
  destruct (Nat.lt_trichotomy k' k) as [Hlt|[Heq|Hgt]]; [|exact Heq|].
  - exfalso. destruct Hlo as [->|Hlo]; [lia|].
    destruct Hstop as [->|Hstop]; [lia|].
    apply (Qlt_not_le _ _ Hstop). apply divided_reaches.
    eapply Qle_trans; [apply (threshold_mono (S k') k); lia|exact Hlo].
  - exfalso. destruct Hhi as [->|Hhi]; [lia|].
    apply (Qlt_not_le _ _ Hhi). apply divided_reaches. now apply Hbelow.
Qed.

Lemma human_bytes_unit_witness :
  human_bytes (Some 5000000%Q)
  = (format_1f (divided 2 5000000) ++ " " ++ nth 2 units "")%string.
Proof.
  apply (human_bytes_unit 5000000%Q 2).
  - reflexivity.
  - lia.
  - right. vm_compute. discriminate.
  - right. reflexivity.
Defined.

(** ** The progress hook *)

(** X5.  With a known total small enough for the float quotient (total
    times 100 below [2^53]) and a downloaded count between 0 and that
    total, the percent reads 100 only when every byte has arrived, and 0
    only while less than a hundredth has. *)
Theorem percent_full_iff_complete (d : progress_dict) :
  (0 < hook_total d)%Z -> (0 <= hook_got d <= hook_total d)%Z ->
  (hook_total d * 100 < 2 ^ 53)%Z ->
  (hook_pct d = Some 100%Z <-> hook_got d = hook_total d)
  /\ (hook_pct d = Some 0%Z <-> (hook_got d * 100 < hook_total d)%Z).
Proof.
  intros Ht Hg Hb. unfold hook_pct.
  destruct (Z.eqb_spec (hook_total d) 0) as [|_]; [lia|].
  rewrite true_divide_exact by lia.
  pose proof (Z.div_mod (hook_got d * 100) (hook_total d) ltac:(lia)) as E.
  pose proof (Z.mod_pos_bound (hook_got d * 100) (hook_total d) Ht) as B.
  split; split; intros H; try (injection H as H); try f_equal; nia.
Qed.

Lemma percent_full_iff_complete_witness :
  hook_pct (progress_report (Some 300%Z) None (Some 299%Z)) = Some 100%Z
  <-> hook_got (progress_report (Some 300%Z) None (Some 299%Z))
      = hook_total (progress_report (Some 300%Z) None (Some 299%Z)).
Proof.
  apply (percent_full_iff_complete
           (progress_report (Some 300%Z) None (Some 299%Z))).
  - reflexivity.
  - vm_compute. split; discriminate.
  - reflexivity.
Defined.

(** ** The run under any schedule *)

Lemma filter_all {A} (f : A -> bool) (l : list A) :
  Forall (fun x => f x = true) l -> filter f l = l.
Proof.
  induction 1 as [|x l Hx _ IH]; cbn [filter]; [reflexivity|].
  now rewrite Hx, IH.
Qed.

Lemma filter_none {A} (f : A -> bool) (l : list A) :
  count f l = 0 -> filter f l = [].
Proof. unfold count. apply length_zero_iff_nil. Qed.

Section Schedules.

Variable ydl : ydl_opts -> nat -> string -> session.

Lemma run_item_only (i j : nat) (s : session) :
  filter (about i) (run_item j s) = if (j =? i)%nat then run_item j s else [].
Proof.
  destruct (Nat.eqb_spec j i) as [->|Hne].
  - apply filter_all, run_item_about.
  - apply filter_none, count_none.
    generalize (run_item_about j s). apply Forall_impl.
    intros [k p|]; cbn; [|reflexivity]. intros H.
    apply Nat.eqb_eq in H. apply Nat.eqb_neq. lia.
Qed.

(** The signals about one row, picked out of the signals of a stretch of
    the queue, are that row's own. *)
Lemma items_from_project (w : DLWorker) (i : nat) (rs : list row) : forall j,
  filter (about i) (items_from ydl w j rs)
  = match nth_error rs (i - j) with
    | Some r => if (j <=? i)%nat then run_item i (session_of ydl w i r) else []
    | None => []
    end.
Proof.
  induction rs as [|r rs IH]; intros j; cbn [items_from].
  - now destruct (i - j).
  - rewrite filter_app, run_item_only, IH.
    destruct (Nat.eqb_spec j i) as [->|Hne].
    + rewrite Nat.sub_diag, Nat.leb_refl. cbn [nth_error].
      replace (i - S i) with 0 by lia.
      destruct (Nat.leb_spec (S i) i); [lia|].
      destruct (nth_error rs 0); now rewrite app_nil_r.
    + destruct (Nat.leb_spec j i) as [Hle|Hgt].
      * replace (i - j) with (S (i - S j)) by lia. cbn [nth_error app].
        destruct (Nat.leb_spec (S j) i); [reflexivity|lia].
      * replace (i - S j) with 0 by lia. replace (i - j) with 0 by lia.
        cbn [nth_error app].
        destruct (Nat.leb_spec (S j) i); [lia|]. now destruct rs.
Qed.

Lemma items_from_below (w : DLWorker) (rs : list row) : forall j,
  Forall (in_queue (j + length rs)) (items_from ydl w j rs).
Proof.
  induction rs as [|r rs IH]; intros j; cbn [items_from length]; [constructor|].
  apply Forall_app. split.
  - generalize (run_item_about j (session_of ydl w j r)). apply Forall_impl.
    intros [k p|]; cbn; [|trivial]. intros H. apply Nat.eqb_eq in H. lia.
  - generalize (IH (S j)). apply Forall_impl.
    intros [k p|]; cbn; [lia|trivial].
Qed.

Lemma upto_below (w : DLWorker) (k : nat) :
  k <= length (rows w) -> Forall (in_queue (length (rows w))) (upto ydl w k).
Proof.
  intros Hk. unfold upto.
  generalize (items_from_below w (firstn k (rows w)) 0). apply Forall_impl.
  intros [i p|]; cbn; [|trivial]. rewrite length_firstn. lia.
Qed.

Lemma upto_prefix (w : DLWorker) (k : nat) :
  exists rest, items_from ydl w 0 (rows w) = upto ydl w k ++ rest.
Proof.
  unfold upto.
  exists (items_from ydl w (0 + length (firstn k (rows w))) (skipn k (rows w))).
  now rewrite <- items_from_app, firstn_skipn.
Qed.

Lemma exec_queue (sched : list action) : forall c,
  rows (self (exec ydl sched c)) = rows (self c)
  /\ opts (self (exec ydl sched c)) = opts (self c).
Proof.
  induction sched as [|a sched IH]; intros c; [now split|].
  rewrite exec_cons. destruct (IH (perform ydl c a)) as [-> ->].
  destruct a; cbn [perform]; [now rewrite step_self|now split].
Qed.

Lemma exec_grows (sched : list action) : forall c,
  exists more, emitted (exec ydl sched c) = emitted c ++ more.
Proof.
  induction sched as [|a sched IH]; intros c.
  - exists []. now rewrite app_nil_r.
  - rewrite exec_cons. destruct (IH (perform ydl c a)) as [more ->].
    assert (H : exists one, emitted (perform ydl c a) = emitted c ++ one).
    { destruct a; cbn [perform]; [|exists []; cbn; now rewrite app_nil_r].
      unfold step. destruct (pc c) as [i|i [|sg pending]| |].
      - exists []. rewrite app_nil_r.
        destruct (nth_error (rows (self c)) i); [|reflexivity].
        now destruct (_stop (self c)).
      - exists []. now rewrite app_nil_r.
      - now exists [sg].
      - now exists [sig_done].
      - exists []. now rewrite app_nil_r. }
    destruct H as [one ->]. exists (one ++ more). now rewrite app_assoc.
Qed.

Lemma consistent_in_queue (c : config) :
  consistent ydl c ->
  Forall (in_queue (length (rows (self c)))) (emitted c).
Proof.
  unfold consistent. destruct (pc c) as [i|i pending| |].
  - intros [Hi ->]. now apply upto_below.
  - intros [Hi E].
    assert (H : Forall (in_queue (length (rows (self c))))
                  (emitted c ++ pending))
      by (rewrite E; apply upto_below; lia).
    now apply Forall_app in H.
  - intros (k & [Hk _] & ->). now apply upto_below.
  - intros (k & [Hk _] & ->). apply Forall_app. split.
    + now apply upto_below.
    + now repeat constructor.
Qed.

End Schedules.

(** X6.  However worker steps and stop requests are interleaved, and
    whether or not the flag was already set, a run that has returned has
    reported a first stretch of the queue and nothing else: its signals
    are those of the first [k] rows, for some [k], as an undisturbed run
    begins with them, followed by one [sig_done].  Every row is either
    reported in full, exactly as its session dictates, or not at all. *)
Theorem any_schedule_trace (ydl : ydl_opts -> nat -> string -> session)
    (sched : list action) (w : DLWorker) :
  pc (exec ydl sched (start w)) = Halted ->
  exists k,
    k <= length (rows w) /\
    emitted (exec ydl sched (start w)) = upto ydl w k ++ [sig_done] /\
    (exists rest, items_from ydl w 0 (rows w) = upto ydl w k ++ rest) /\
    (forall i r, nth_error (rows w) i = Some r ->
       filter (about i) (emitted (exec ydl sched (start w)))
       = if (i <? k)%nat then run_item i (session_of ydl w i r) else []) /\
    count is_terminal_signal (emitted (exec ydl sched (start w))) = k /\
    count is_done (emitted (exec ydl sched (start w))) = 1.
Proof.
  intros Hpc. destruct (halted_shape ydl sched w Hpc) as (k & Hk & ->).
  destruct (upto_trace ydl w k Hk) as (_ & _ & Hterm & Hdone & _ & _).
  exists k. repeat split; try assumption.
  - apply upto_prefix.
  - intros i r Hr. rewrite filter_app. cbn [filter about]. rewrite app_nil_r.
    unfold upto. rewrite items_from_project, Nat.sub_0_r. cbn [Nat.leb].
    destruct (Nat.ltb_spec i k) as [Hlt|Hge].
    + now rewrite nth_error_firstn, (proj2 (Nat.ltb_lt i k) Hlt), Hr.
    + rewrite nth_error_firstn.
      now destruct (Nat.ltb_spec i k); [lia|].
Qed.

Lemma any_schedule_trace_witness :
  exists k,
    k <= 3 /\
    emitted
      (exec sample_ydl (Work :: Work :: StopReq :: repeat Work 11)
         (start (init sample_rows [])))
    = upto sample_ydl (init sample_rows []) k ++ [sig_done].
Proof.
  destruct (any_schedule_trace sample_ydl
              (Work :: Work :: StopReq :: repeat Work 11)
              (init sample_rows []))
    as (k & Hk & E & _).
  - reflexivity.
  - exists k. split; [exact Hk|exact E].
Defined.

(** X7.  A run returns, and stop requests never delay it: whatever the
    schedule, once the worker has had the steps an undisturbed run takes
    (per row the stop test, one step per signal and the way back to the
    head of the loop, then two to leave) it has returned. *)
Theorem run_returns (ydl : ydl_opts -> nat -> string -> session)
    (sched : list action) (w : DLWorker) :
  cost_from ydl w 0 (rows w) + 2 <= count is_work sched ->
  pc (exec ydl sched (start w)) = Halted.
Proof.
  intros H. apply exec_halts. unfold todo, start. cbn [pc self skipn].
  destruct (_stop w); lia.
Qed.

Lemma run_returns_witness :
  pc (exec sample_ydl
        (StopReq :: repeat Work 10 ++ StopReq :: repeat Work 9)
        (start (init sample_rows [])))
  = Halted.
Proof.
  apply (run_returns sample_ydl
           (StopReq :: repeat Work 10 ++ StopReq :: repeat Work 9)
           (init sample_rows [])).
  vm_compute. lia.
Defined.

(** X8.  At every point of a run, under any schedule, each signal emitted
    so far carries the index of a queued row, and whatever happens next
    only adds signals after those already emitted. *)
Theorem emitted_signals_stay (ydl : ydl_opts -> nat -> string -> session)
    (sched later : list action) (w : DLWorker) :
  Forall (in_queue (length (rows w))) (emitted (exec ydl sched (start w)))
  /\ exists more,
       emitted (exec ydl later (exec ydl sched (start w)))
       = emitted (exec ydl sched (start w)) ++ more.
Proof.
  split; [|apply exec_grows].
  pose proof (consistent_in_queue ydl _
                (consistent_exec ydl sched (start w) (consistent_start ydl w)))
    as H.
  now rewrite (proj1 (exec_queue ydl sched (start w))) in H.
Qed.

(** ** The window *)

Section Window.

Variable ydl : ydl_opts -> nat -> string -> session.
Variable outtmpl : string -> string.

Lemma play_cons (e : Main.event) (events : list Main.event) (m : Main.window) :
  Main.play ydl outtmpl (e :: events) m
  = Main.play ydl outtmpl events (Main.react ydl outtmpl m e).
Proof. reflexivity. Qed.

(** Worker steps change the worker and nothing else of the window. *)
Lemma play_steps (n : nat) : forall (m : Main.window) (c : config),
  Main.worker m = Some c ->
  Main.play ydl outtmpl (repeat Main.WorkerStep n) m
  = Main.Window (Main.table m) (Main.url_input m) (Main.out_dir m)
      (Main.max_res m) (Main.format_combo m)
      (Some (exec ydl (repeat Work n) c)) (Main.btn_start m) (Main.btn_stop m).
Proof.
  induction n as [|n IH]; intros m c H.
  - destruct m. cbn in *. now rewrite H.
  - cbn [repeat]. rewrite play_cons, exec_cons. cbn [Main.react perform].
    rewrite H. now rewrite (IH _ (step ydl c)).
Qed.

Lemma halted_stays (sched : list action) : forall c,
  pc c = Halted -> pc (exec ydl sched c) = Halted.
Proof.
  induction sched as [|a sched IH]; intros c H; [exact H|].
  rewrite exec_cons. apply IH. destruct a; cbn [perform].
  - unfold step. now rewrite H.
  - exact H.
Qed.

Lemma running_iff (c : config) :
  Main.isRunning (Some c) = true <-> pc c <> Halted.
Proof. cbn. destruct (pc c); split; congruence. Qed.

Lemma start_ignored (mkdir_ok : bool) (m : Main.window) :
  Main.isRunning (Main.worker m) = true ->
  Main._start outtmpl mkdir_ok m = Some m.
Proof.
  intros H. unfold Main._start. rewrite H.
  now destruct (length (Main.table m) =? 0)%nat.
Qed.

Lemma sound_react (m : Main.window) (e : Main.event) :
  Main.sound ydl m -> Main.sound ydl (Main.react ydl outtmpl m e).
Proof.
  unfold Main.sound.
  destruct e as [u|res fmt dir|mkdir_ok| | |]; cbn [Main.react].
  - unfold Main._add_url. destruct (u =? "")%string; [trivial|].
    cbn [Main.worker Main.table]. destruct (Main.worker m); [|trivial].
    intros [H1 H2]. split; [exact H1|]. rewrite length_app. lia.
  - trivial.
  - unfold Main._start.
    destruct (length (Main.table m) =? 0)%nat; [trivial|].
    destruct (Main.isRunning (Main.worker m)); [trivial|].
    destruct (negb mkdir_ok); [trivial|].
    destruct (Main.max_res_val _); [|trivial].
    intros _. cbn [Main.worker Main.table]. split.
    + apply consistent_start.
    + cbn. now rewrite length_map.
  - unfold Main._stop. destruct (Main.worker m) as [c|] eqn:E; [|now rewrite E].
    destruct (Main.isRunning (Some c)); [|now rewrite E].
    cbn [Main.worker Main.table]. intros [H1 H2].
    split; [now apply consistent_stop|exact H2].
  - trivial.
  - destruct (Main.worker m) as [c|] eqn:E; [|now rewrite E].
    cbn [Main.worker Main.table]. intros [H1 H2].
    split; [now apply consistent_step|now rewrite step_self].
Qed.

Lemma sound_play (events : list Main.event) : forall m,
  Main.sound ydl m -> Main.sound ydl (Main.play ydl outtmpl events m).
Proof.
  induction events as [|e events IH]; intros m H; [exact H|].
  rewrite play_cons. now apply IH, sound_react.
Qed.

End Window.

(** X9.  Start takes a snapshot of the table.  With rows in the table, no
    run active and an entry of the resolution box selected, [_start]
    makes a worker whose queue is the URLs of column 0 from top to bottom
    and whose format option is the selector for the chosen cap, disables
    Start and enables Stop; left alone, that run returns with one terminal
    signal per table row and one [sig_done].  If the output folder cannot
    be created, no worker is made. *)
Theorem start_snapshots_table (ydl : ydl_opts -> nat -> string -> session)
    (outtmpl : string -> string) (m : Main.window) :
  Main.table m <> [] -> Main.isRunning (Main.worker m) = false ->
  (0 <= Main.max_res m < 5)%Z ->
  exists cap,
    Main.max_res_val (Main.currentText Main.resolution_items (Main.max_res m))
    = Some cap /\
    let o := Main.start_opts (outtmpl (Main.out_dir m)) cap (Main.format_combo m) in
    let w := init (map Row (Main.table m)) o in
    let m' := Main.Window (Main.table m) (Main.url_input m) (Main.out_dir m)
                (Main.max_res m) (Main.format_combo m) (Some (start w))
                false true in
    Main._start outtmpl true m = Some m' /\
    Main._start outtmpl false m = None /\
    In ("format", build_format cap) o /\
    forall n, todo ydl (start w) <= n ->
      exists c,
        Main.worker (Main.play ydl outtmpl (repeat Main.WorkerStep n) m')
        = Some c /\
        pc c = Halted /\
        emitted c = items_from ydl w 0 (map Row (Main.table m)) ++ [sig_done] /\
        count is_terminal_signal (emitted c) = length (Main.table m) /\
        count is_done (emitted c) = 1.
Proof.
  intros Ht Hr Hi.
  assert (Hcap : exists cap,
    Main.max_res_val (Main.currentText Main.resolution_items (Main.max_res m))
    = Some cap).
  { assert (H : (Main.max_res m = 0 \/ Main.max_res m = 1
                 \/ Main.max_res m = 2 \/ Main.max_res m = 3
                 \/ Main.max_res m = 4)%Z) by lia.
    destruct H as [->|[->|[->|[->| ->]]]]; eexists; reflexivity. }
  destruct Hcap as [cap Hcap]. exists cap. split; [exact Hcap|].
  intros o w m'.
  assert (Hlen : (length (Main.table m) =? 0)%nat = false).
  { apply Nat.eqb_neq. destruct (Main.table m); [contradiction|discriminate]. }
  split; [|split; [|split]].
  - unfold Main._start. rewrite Hlen, Hr, Hcap. reflexivity.
  - unfold Main._start. rewrite Hlen, Hr. reflexivity.
  - now left.
  - intros n Hn. rewrite (play_steps ydl outtmpl n m' (start w) eq_refl).
    cbn [Main.worker]. eexists. split; [reflexivity|].
    assert (Hpc : pc (exec ydl (repeat Work n) (start w)) = Halted).
    { apply exec_halts. now rewrite count_work_repeat. }
    assert (Hem : emitted (exec ydl (repeat Work n) (start w))
                  = upto ydl w (length (rows w)) ++ [sig_done]).
    { rewrite <- (final_halted ydl _ Hpc), final_exec_work, upto_all.
      reflexivity. }
    destruct (upto_trace ydl w (length (rows w)) (le_n _))
      as (_ & _ & Htotal & Hdone & _ & _).
    rewrite <- Hem in Htotal, Hdone.
    split; [exact Hpc|]. split; [now rewrite Hem, upto_all|].
    split; [|exact Hdone]. rewrite Htotal. cbn. apply length_map.
Qed.

Lemma start_snapshots_table_witness :
  Main._start sample_outtmpl false sample_window = None.
Proof.
  destruct (start_snapshots_table sample_ydl sample_outtmpl sample_window)
    as (cap & _ & _ & E & _).
  - discriminate.
  - reflexivity.
  - vm_compute. split; [discriminate|reflexivity].
  - exact E.
Defined.

(** X10.  One run at a time.  As long as the worker steps and stop clicks
    among some events do not bring the current run to its return, the
    worker the window holds after all the events is that same run,
    advanced by exactly those steps and stop requests: clicking Start,
    adding URLs, changing the options or a stray done-delivery in between
    neither replace it nor touch its queue or its options. *)
Theorem running_worker_kept (ydl : ydl_opts -> nat -> string -> session)
    (outtmpl : string -> string) (events : list Main.event) :
  forall (m : Main.window) (c : config),
    Main.worker m = Some c ->
    pc (exec ydl (Main.schedule_of events) c) <> Halted ->
    Main.worker (Main.play ydl outtmpl events m)
    = Some (exec ydl (Main.schedule_of events) c)
    /\ rows (self (exec ydl (Main.schedule_of events) c)) = rows (self c)
    /\ opts (self (exec ydl (Main.schedule_of events) c)) = opts (self c).
Proof.
  intros m c Hw Hrun. split; [|apply exec_queue].
  revert m c Hw Hrun.
  induction events as [|e events IH]; intros m c Hw Hrun; [exact Hw|].
  rewrite play_cons.
  assert (Hc : pc c <> Halted).
  { intros H. apply Hrun. now apply halted_stays. }
  destruct e as [u|res fmt dir|mkdir_ok| | |];
    cbn [Main.schedule_of flat_map app] in *.
  - apply IH; [|exact Hrun]. cbn [Main.react]. unfold Main._add_url.
    now destruct (u =? "")%string.
  - apply IH; [|exact Hrun]. exact Hw.
  - apply IH; [|exact Hrun]. cbn [Main.react].
    rewrite start_ignored; [exact Hw|].
    rewrite Hw. now apply running_iff.
  - rewrite exec_cons in *. apply IH; [|exact Hrun].
    cbn [Main.react perform]. unfold Main._stop. rewrite Hw.
    now rewrite (proj2 (running_iff c) Hc).
  - apply IH; [|exact Hrun]. exact Hw.
  - rewrite exec_cons in *. apply IH; [|exact Hrun].
    cbn [Main.react perform]. now rewrite Hw.
Qed.

Lemma running_worker_kept_witness :
  Main.worker
    (Main.play sample_ydl sample_outtmpl
       [Main.ClickStart true; Main.WorkerStep; Main.AddUrl "d";
        Main.ClickStart true; Main.ClickStop; Main.WorkerStep]
       (Main.Window ["a"; "b"; "c"] "" "downloads" 3 0
          (Some (start (init sample_rows []))) false true))
  = Some (exec sample_ydl [Work; StopReq; Work] (start (init sample_rows []))).
Proof.
  apply (running_worker_kept sample_ydl sample_outtmpl
           [Main.ClickStart true; Main.WorkerStep; Main.AddUrl "d";
            Main.ClickStart true; Main.ClickStop; Main.WorkerStep]).
  - reflexivity.
  - vm_compute. discriminate.
Defined.

(** X11.  Starting from a window without a worker, after any events
    every signal the worker has emitted carries the index of a row that
    is in the table: rows are only ever added at the end, and a queue is
    taken from the table when its run starts. *)
Theorem signals_name_table_rows (ydl : ydl_opts -> nat -> string -> session)
    (outtmpl : string -> string) (events : list Main.event)
    (m : Main.window) (c : config) :
  Main.worker m = None ->
  Main.worker (Main.play ydl outtmpl events m) = Some c ->
  length (rows (self c)) <= length (Main.table (Main.play ydl outtmpl events m))
  /\ Forall (in_queue (length (Main.table (Main.play ydl outtmpl events m))))
       (emitted c).
Proof.
  intros Hm Hc.
  assert (Hs : Main.sound ydl (Main.play ydl outtmpl events m)).
  { apply sound_play. unfold Main.sound. now rewrite Hm. }
  unfold Main.sound in Hs. rewrite Hc in Hs. destruct Hs as [Hcons Hlen].
  split; [exact Hlen|].
  generalize (consistent_in_queue ydl c Hcons). apply Forall_impl.
  intros [i p|]; cbn; [lia|trivial].
Qed.

Lemma signals_name_table_rows_witness :
  Forall (in_queue 4)
    (emitted (exec sample_ydl (repeat Work 6)
                (start (init (map Row ["a"; "b"; "c"])
                         (Main.start_opts (sample_outtmpl "downloads")
                            (Some 1080%Z) 0))))).
Proof.
  apply (signals_name_table_rows sample_ydl sample_outtmpl
           (Main.ClickStart true :: Main.AddUrl "d"
              :: repeat Main.WorkerStep 6)
           sample_window).
  - reflexivity.
  - reflexivity.
Defined.
